(** * OrganizeFormat: rendering a sanitized file path from a template

    A shallow embedding of [src/organize/organizeformat.cpp] (Strawberry
    Music Player).  Strings are [QString]s, i.e. sequences of UTF-16 code
    units; the Qt functions the source calls are modelled in [Module Qt]
    from their documented behaviour, the collaborators the source only
    declares (pattern constants, transliteration, Unicode tables) are the
    fields of the class [Platform]. *)

From Stdlib Require Import String Ascii NArith ZArith Bool Arith Lia List.
Import ListNotations.

(** ** Qt strings *)

Module Qt.

(** A [QChar] is a UTF-16 code unit. *)
Definition QChar := N.
Definition QString := list QChar.

Definition QLatin1Char (a : ascii) : QChar := N_of_ascii a.

(** [QStringLiteral]/[QLatin1String] of an ASCII literal. *)
Definition qs (s : string) : QString := map QLatin1Char (list_ascii_of_string s).

Definition QChar_eqb (a b : QChar) : bool := N.eqb a b.
Arguments QChar_eqb : simpl never.

Fixpoint QString_eqb (a b : QString) : bool :=
  match a, b with
  | [], [] => true
  | x :: a', y :: b' => QChar_eqb x y && QString_eqb a' b'
  | _, _ => false
  end.

Definition isEmpty (s : QString) : bool :=
  match s with [] => true | _ :: _ => false end.

Definition contains (c : QChar) (s : QString) : bool := existsb (QChar_eqb c) s.

(** [QChar::isSpace]: the separator categories Zs, Zl, Zp and the control
    characters U+0009..U+000D, U+0085. *)
Definition isSpace (c : QChar) : bool :=
  (N.eqb c 32 || (N.leb 9 c && N.leb c 13)
   || N.eqb c 133 || N.eqb c 160 || N.eqb c 5760
   || (N.leb 8192 c && N.leb c 8202)
   || N.eqb c 8232 || N.eqb c 8233 || N.eqb c 8239 || N.eqb c 8287
   || N.eqb c 12288)%bool.

(** The class [\s] of a [QRegularExpression] compiled without
    [UseUnicodePropertiesOption]: HT, LF, VT, FF, CR and space. *)
Definition regex_space (c : QChar) : bool :=
  (N.eqb c 32 || (N.leb 9 c && N.leb c 13))%bool.

(** The class [[a-zA-Z]]. *)
Definition regex_letter (c : QChar) : bool :=
  ((N.leb 97 c && N.leb c 122) || (N.leb 65 c && N.leb c 90))%bool.

Fixpoint takeWhile (p : QChar -> bool) (s : QString) : QString :=
  match s with
  | [] => []
  | c :: r => if p c then c :: takeWhile p r else []
  end.

Fixpoint dropWhile (p : QChar -> bool) (s : QString) : QString :=
  match s with
  | [] => []
  | c :: r => if p c then dropWhile p r else s
  end.

(** [QString::trimmed]. *)
Definition trimmed (s : QString) : QString :=
  rev (dropWhile isSpace (rev (dropWhile isSpace s))).

(** [QString::simplified]: leading and trailing whitespace removed, every
    internal run of whitespace replaced by one U+0020. *)
Fixpoint simplify_from (pending : bool) (s : QString) : QString :=
  match s with
  | [] => []
  | c :: r =>
      if isSpace c then simplify_from true r
      else if pending then 32%N :: c :: simplify_from false r
           else c :: simplify_from false r
  end.

Definition simplified (s : QString) : QString :=
  simplify_from false (dropWhile isSpace s).

(** [QString::remove(QRegularExpression)] for a pattern that is a character
    class, and [QString::remove(QChar)]. *)
Definition remove_class (p : QChar -> bool) (s : QString) : QString :=
  filter (fun c => negb (p c)) s.

Definition remove_char (c : QChar) (s : QString) : QString :=
  remove_class (QChar_eqb c) s.

(** [QString::replace(QChar, QChar)]. *)
Definition replace_char (a b : QChar) (s : QString) : QString :=
  map (fun c => if QChar_eqb c a then b else c) s.

(** [QString::replace(QRegularExpression, QString)] for a character class. *)
Definition replace_class (p : QChar -> bool) (by_ : QString) (s : QString) : QString :=
  flat_map (fun c => if p c then by_ else [c]) s.

(** [QString::replace(pos, len, after)]. *)
Definition replace_at (pos len : nat) (after s : QString) : QString :=
  firstn pos s ++ after ++ skipn (pos + len) s.

(** [QString::split(QChar)] with [Qt::KeepEmptyParts]. *)
Fixpoint split (sep : QChar) (s : QString) : list QString :=
  match s with
  | [] => [[]]
  | c :: r =>
      if QChar_eqb c sep then [] :: split sep r
      else match split sep r with
           | [] => [[c]]
           | p :: ps => (c :: p) :: ps
           end
  end.

(** [QStringList::join(QChar)]. *)
Fixpoint join (sep : QChar) (parts : list QString) : QString :=
  match parts with
  | [] => []
  | [p] => p
  | p :: ps => p ++ sep :: join sep ps
  end.

(** [QString::section(sep, 0, -2)] with the default flags: the fields from
    the first to the last but one, joined by the separator. *)
Definition section_0_m2 (sep : QChar) (s : QString) : QString :=
  join sep (removelast (split sep s)).

(** [QString::right(1)]. *)
Definition right1 (s : QString) : QString :=
  match rev s with [] => [] | c :: _ => [c] end.

(** [QString::number] of a signed integer, base 10. *)
Definition digit_char (d : N) : QChar := (48 + d)%N.

Fixpoint digits_from (fuel : nat) (n : N) (acc : QString) : QString :=
  match fuel with
  | O => acc
  | S f =>
      let acc' := digit_char (n mod 10) :: acc in
      if N.eqb (n / 10) 0 then acc' else digits_from f (n / 10)%N acc'
  end.

Definition number (z : Z) : QString :=
  let n := Z.abs_N z in
  let ds := digits_from (S (N.size_nat n)) n [] in
  if Z.ltb z 0 then QLatin1Char "-" :: ds else ds.

(** *** [QFileInfo] on a path with '/' separators *)

Definition slash : QChar := QLatin1Char "/".
Definition dot : QChar := QLatin1Char ".".
Definition backslash : QChar := QLatin1Char "\".

(** Text after the last occurrence of [c], if there is one. *)
Fixpoint after_last (c : QChar) (s : QString) : option QString :=
  match s with
  | [] => None
  | x :: r =>
      match after_last c r with
      | Some t => Some t
      | None => if QChar_eqb x c then Some r else None
      end
  end.

(** Text before the last occurrence of [c], if there is one. *)
Fixpoint before_last (c : QChar) (s : QString) : option QString :=
  match s with
  | [] => None
  | x :: r =>
      match before_last c r with
      | Some t => Some (x :: t)
      | None => if QChar_eqb x c then Some [] else None
      end
  end.

(** [QFileInfo::fileName]: everything after the last separator. *)
Definition fileName (s : QString) : QString :=
  match after_last slash s with Some f => f | None => s end.

(** [QFileInfo::path]: empty for the empty name, "." without a separator,
    "/" when the only separator is the first character, otherwise what
    precedes the last separator. *)
Definition path (s : QString) : QString :=
  match s with
  | [] => []
  | _ =>
      match before_last slash s with
      | None => [dot]
      | Some [] => [slash]
      | Some d => d
      end
  end.

(** [QFileInfo::completeBaseName]: the file name up to its last dot. *)
Definition completeBaseName (s : QString) : QString :=
  let f := fileName s in
  match before_last dot f with Some b => b | None => f end.

(** [QFileInfo::suffix]: the file name after its last dot. *)
Definition suffix (s : QString) : QString :=
  match after_last dot (fileName s) with Some e => e | None => [] end.

End Qt.

Import Qt.

(** ** Collaborators *)

(** Modelled from the spec: the pattern constants [kProblematicCharactersRegex],
    [kInvalidFatCharactersRegex], [kInvalidDirCharactersRegex] and the array
    [kInvalidPrefixCharacters] are declared in [utilities/filenameconstants.h],
    which is missing; the spec describes each pattern as a set of characters
    ("remove characters matching a problematic set", "the FAT-invalid set",
    "the invalid-path-character set"), so each is a predicate on characters
    (with the case-insensitive option already taken into account), and the
    array is a list of characters.  [Utilities::Transliterate]
    ([utilities/transliterate.h]) is the spec's external transliteration
    service; [decomposition] and [toUpper] are Qt's Unicode tables
    ([QChar::decomposition], [QChar::toUpper]).  Every theorem below holds for
    every choice of these seven. *)
Class Platform := {
  isProblematicCharacter : QChar -> bool;
  isInvalidFatCharacter : QChar -> bool;
  isInvalidDirCharacter : QChar -> bool;
  kInvalidPrefixCharacters : list QChar;
  Transliterate : QString -> QString;
  decomposition : QChar -> QString;
  toUpper : QChar -> QChar
}.

(** Modelled from the spec: [kNsecPerSec] is declared in
    [utilities/timeconstants.h], which is missing; the spec calls it
    "nanoseconds-per-second". *)
Definition kNsecPerSec : Z := 1000000000.

(** The metadata record, as the values of the accessors the source calls
    ([core/song.h]). *)
Record Song := {
  title : QString;
  album : QString;
  artist : QString;
  composer : QString;
  performer : QString;
  grouping : QString;
  lyrics : QString;
  genre : QString;
  comment : QString;
  year : Z;
  effective_originalyear : Z;
  track : Z;
  disc : Z;
  length_nanosec : Z;
  bitrate : Z;
  samplerate : Z;
  bitdepth : Z;
  url_toLocalFile : QString;
  effective_albumartist : QString;
  is_compilation : bool;
  basefilename : QString
}.

(** ** Outcomes *)

(** A call either returns, or exceeds the iteration bound of the model
    ([OutOfFuel]), or indexes a string out of range ([OutOfRange], where Qt
    asserts). *)
Inductive result (A : Type) : Type :=
| Ok (a : A)
| OutOfFuel
| OutOfRange.

Arguments Ok {A} a.
Arguments OutOfFuel {A}.
Arguments OutOfRange {A}.

Definition bind {A B : Type} (m : result A) (k : A -> result B) : result B :=
  match m with
  | Ok a => k a
  | OutOfFuel => OutOfFuel
  | OutOfRange => OutOfRange
  end.

Notation "x <- m ;; k" := (bind m (fun x => k))
  (at level 61, m at next level, right associativity).
Notation "' p <- m ;; k" := (bind m (fun p => k))
  (at level 61, p pattern, m at next level, right associativity).

(** ** The class OrganizeFormat *)

Record OrganizeFormat := {
  format_ : QString;
  remove_problematic_ : bool;
  remove_non_fat_ : bool;
  remove_non_ascii_ : bool;
  allow_ascii_ext_ : bool;
  replace_spaces_ : bool
}.

(** Modelled from the spec: the result type [GetFilenameForSongResult] is
    declared in [organizeformat.h], which is missing; the spec describes it
    as "Result{ path, isUnique } or an explicit could-not-produce-a-path
    signal". *)
Inductive GetFilenameForSongResult : Type :=
| Rejected
| Rendered (filename : QString) (unique_filename : bool).

Definition kUniqueTags : list QString := [qs "title"; qs "track"].

Definition kKnownTags : list QString :=
  [qs "title"; qs "album"; qs "artist"; qs "artistinitial"; qs "albumartist";
   qs "composer"; qs "track"; qs "disc"; qs "year"; qs "originalyear";
   qs "genre"; qs "comment"; qs "length"; qs "bitrate"; qs "samplerate";
   qs "bitdepth"; qs "extension"; qs "performer"; qs "grouping"; qs "lyrics"].

Definition QStringList_contains (l : list QString) (s : QString) : bool :=
  existsb (QString_eqb s) l.

(** The constructor. *)
Definition OrganizeFormat_new (format : QString) : OrganizeFormat :=
  {| format_ := format;
     remove_problematic_ := false;
     remove_non_fat_ := false;
     remove_non_ascii_ := false;
     allow_ascii_ext_ := false;
     replace_spaces_ := true |}.

Definition set_format (v : QString) (this : OrganizeFormat) : OrganizeFormat :=
  {| format_ := replace_char backslash slash v;
     remove_problematic_ := remove_problematic_ this;
     remove_non_fat_ := remove_non_fat_ this;
     remove_non_ascii_ := remove_non_ascii_ this;
     allow_ascii_ext_ := allow_ascii_ext_ this;
     replace_spaces_ := replace_spaces_ this |}.

(** *** The two patterns *)

Definition lbrace : QChar := QLatin1Char "{".
Definition rbrace : QChar := QLatin1Char "}".
Definition percent : QChar := QLatin1Char "%".

Definition not_brace (c : QChar) : bool :=
  negb (QChar_eqb c lbrace || QChar_eqb c rbrace).

(** [kBlockPattern], anchored at the head of [s]: an opening brace, one or
    more characters that are not braces, a closing brace.  Returns the
    captured group. *)
Definition block_at (s : QString) : option QString :=
  match s with
  | [] => None
  | c :: r =>
      if QChar_eqb c lbrace then
        let body := takeWhile not_brace r in
        match body, skipn (length body) r with
        | _ :: _, c' :: _ => if QChar_eqb c' rbrace then Some body else None
        | _, _ => None
        end
      else None
  end.

(** The leftmost match of [kBlockPattern] in [s], whose head is at index
    [start] of the subject. *)
Fixpoint find_block (s : QString) (start : nat) : option (nat * QString) :=
  match block_at s with
  | Some body => Some (start, body)
  | None =>
      match s with
      | [] => None
      | _ :: r => find_block r (S start)
      end
  end.

(** [block_regexp.match(block, pos)]: [capturedStart] and [captured(1)];
    [capturedLength] is the length of the capture plus the two braces. *)
Definition match_block (block : QString) (pos : nat) : option (nat * QString) :=
  find_block (skipn pos block) pos.

(** [kTagPattern]: a percent sign and the letters that follow it. *)
Fixpoint find_tag (s : QString) (start : nat) : option (nat * QString) :=
  match s with
  | [] => None
  | c :: r =>
      if QChar_eqb c percent then Some (start, takeWhile regex_letter r)
      else find_tag r (S start)
  end.

Definition match_tag (block : QString) (pos : nat) : option (nat * QString) :=
  find_tag (skipn pos block) pos.

(** The pattern [^the\s+] with the case-insensitive option, removed. *)
Definition remove_regex_the (s : QString) : QString :=
  match s with
  | t :: h :: e :: (c :: _) as r =>
      if (QChar_eqb t (QLatin1Char "t") || QChar_eqb t (QLatin1Char "T"))
         && (QChar_eqb h (QLatin1Char "h") || QChar_eqb h (QLatin1Char "H"))
         && (QChar_eqb e (QLatin1Char "e") || QChar_eqb e (QLatin1Char "E"))
         && regex_space c
      then dropWhile regex_space r
      else s
  | _ => s
  end.

Section Render.

Context {P : Platform}.
Variable this : OrganizeFormat.

(** *** TagValue *)

(** The [artistinitial] branch, from the value of
    [song.effective_albumartist()]; [value[0]] on an empty string is out of
    range. *)
Definition artistinitial_value (effective_albumartist : QString) : result QString :=
  let value := trimmed effective_albumartist in
  if isEmpty value then Ok value
  else
    let value := remove_regex_the value in
    match value with
    | [] => OutOfRange
    | c :: _ => Ok [toUpper c]
    end.

(** The chain of comparisons that looks the field up. *)
Definition tag_field (tag : QString) (song : Song) : result QString :=
  if QString_eqb tag (qs "title") then Ok (title song)
  else if QString_eqb tag (qs "album") then Ok (album song)
  else if QString_eqb tag (qs "artist") then Ok (artist song)
  else if QString_eqb tag (qs "composer") then Ok (composer song)
  else if QString_eqb tag (qs "performer") then Ok (performer song)
  else if QString_eqb tag (qs "grouping") then Ok (grouping song)
  else if QString_eqb tag (qs "lyrics") then Ok (lyrics song)
  else if QString_eqb tag (qs "genre") then Ok (genre song)
  else if QString_eqb tag (qs "comment") then Ok (comment song)
  else if QString_eqb tag (qs "year") then Ok (number (year song))
  else if QString_eqb tag (qs "originalyear") then Ok (number (effective_originalyear song))
  else if QString_eqb tag (qs "track") then Ok (number (track song))
  else if QString_eqb tag (qs "disc") then Ok (number (disc song))
  else if QString_eqb tag (qs "length") then Ok (number (Z.quot (length_nanosec song) kNsecPerSec))
  else if QString_eqb tag (qs "bitrate") then Ok (number (bitrate song))
  else if QString_eqb tag (qs "samplerate") then Ok (number (samplerate song))
  else if QString_eqb tag (qs "bitdepth") then Ok (number (bitdepth song))
  else if QString_eqb tag (qs "extension") then Ok (suffix (url_toLocalFile song))
  else if QString_eqb tag (qs "artistinitial") then
    artistinitial_value (effective_albumartist song)
  else if QString_eqb tag (qs "albumartist") then
    Ok (if is_compilation song then qs "Various Artists" else effective_albumartist song)
  else Ok [].

(** The sentinels "0" and "-1" mean "unset". *)
Definition suppress_sentinel (value : QString) : QString :=
  if QString_eqb value (qs "0") || QString_eqb value (qs "-1") then [] else value.

(** Single-digit track numbers get a leading zero. *)
Definition pad_track (tag value : QString) : QString :=
  if QString_eqb tag (qs "track") && Nat.eqb (length value) 1
  then QLatin1Char "0" :: value else value.

(** Characters that should not be in paths are removed. *)
Definition clean_value (value : QString) : QString :=
  let value := remove_class isInvalidDirCharacter value in
  let value := if remove_problematic_ this then remove_char dot value else value in
  trimmed value.

Definition TagValue (tag : QString) (song : Song) : result QString :=
  value <- tag_field tag song ;;
  Ok (clean_value (pad_track tag (suppress_sentinel value))).

(** *** ParseBlock *)

(** The loop over tags: [block], [pos], the flag behind [have_tagdata] and
    the local [empty]. *)
Fixpoint tag_loop (song : Song) (fuel : nat) (block : QString) (pos : nat)
    (have_tagdata empty : bool) : result (QString * bool * bool) :=
  match fuel with
  | O => OutOfFuel
  | S fuel' =>
      match match_tag block pos with
      | None => Ok (block, have_tagdata, empty)
      | Some (start, tag) =>
          value <- TagValue tag song ;;
          let empty' := if isEmpty value then true else empty in
          let have' :=
            if isEmpty value then have_tagdata
            else if QStringList_contains kUniqueTags tag then true
                 else have_tagdata in
          tag_loop song fuel'
            (replace_at start (S (length tag)) value block)
            (start + length value) have' empty'
      end
  end.

(** The loop over blocks; [rec] is the recursive call of [ParseBlock]. *)
Fixpoint block_loop (rec : QString -> bool -> result (QString * bool * bool))
    (fuel : nat) (block : QString) (pos : nat) (have_tagdata : bool)
    : result (QString * bool) :=
  match fuel with
  | O => OutOfFuel
  | S fuel' =>
      match match_block block pos with
      | None => Ok (block, have_tagdata)
      | Some (start, captured) =>
          '(value, have', empty) <- rec captured have_tagdata ;;
          let value := if (empty : bool) then [] else value in
          block_loop rec fuel'
            (replace_at start (length captured + 2) value block)
            (start + length value) have'
      end
  end.

(** [ParseBlock(block, song, have_tagdata, any_empty)] returns the text, the
    value left in [*have_tagdata] and the value left in [*any_empty]; on
    every call that starts in [GetFilenameForSong] the pointer [have_tagdata]
    is not null, and the flag behind it is passed along.  Each loop is run
    for at most one more iteration than its subject has characters; [depth]
    bounds the recursion. *)
Fixpoint ParseBlock (depth : nat) (block : QString) (song : Song)
    (have_tagdata : bool) : result (QString * bool * bool) :=
  match depth with
  | O => OutOfFuel
  | S depth' =>
      '(block1, have1) <-
         block_loop (fun b h => ParseBlock depth' b song h)
                    (S (length block)) block 0 have_tagdata ;;
      tag_loop song (S (length block1)) block1 0 have1 false
  end.

(** *** GetFilenameForSong *)

(** Lines 92 to 113: the evaluated template, with the record's base file
    name as a fallback for an empty name. *)
Definition fallback_basefilename (song : Song) (filepath : QString) : QString :=
  let filepath := if isEmpty filepath then basefilename song else filepath in
  if isEmpty (completeBaseName filepath) then
    let path := path filepath in
    (if isEmpty path then []
     else if negb (QString_eqb (right1 path) [slash]) then path ++ [slash]
          else path)
    ++ basefilename song
  else filepath.

(** Line 115. *)
Definition is_rejected (filepath : QString) : bool :=
  isEmpty filepath
  || (contains slash filepath
      && (isEmpty (section_0_m2 slash filepath)
          || isEmpty (section_0_m2 slash filepath))).

Definition strip_non_ascii (ascii : N) (filepath : QString) : QString :=
  flat_map (fun c =>
    if N.ltb c ascii then [c]
    else match decomposition c with
         | d :: _ => if N.ltb d ascii then [d] else []
         | [] => []
         end) filepath.

(** Lines 119 to 146: the removal of characters. *)
Definition remove_characters (filepath : QString) : QString :=
  let filepath :=
    if remove_problematic_ this
    then remove_class isProblematicCharacter filepath else filepath in
  let filepath :=
    if remove_non_fat_ this || (remove_non_ascii_ this && negb (allow_ascii_ext_ this))
    then Transliterate filepath else filepath in
  let filepath :=
    if remove_non_fat_ this
    then remove_class isInvalidFatCharacter filepath else filepath in
  if remove_non_ascii_ this
  then strip_non_ascii (if allow_ascii_ext_ this then 255 else 128) filepath
  else filepath.

(** Lines 152 to 161: the extension that will be appended. *)
Definition fixup_extension (song : Song) (extension filepath : QString) : QString :=
  if isEmpty extension then
    if isEmpty (suffix filepath) then suffix (url_toLocalFile song)
    else suffix filepath
  else extension.

(** Lines 162 to 166: the path without its suffix. *)
Definition without_suffix (filepath : QString) : QString :=
  (if negb (isEmpty (path filepath)) && negb (QString_eqb (path filepath) [dot])
   then path filepath ++ [slash] else [])
  ++ completeBaseName filepath.

Definition startsWith (c : QChar) (part : QString) : bool :=
  match part with [] => false | x :: _ => QChar_eqb x c end.

(** Lines 173 to 178: the first prefix character the part starts with is
    removed, once. *)
Fixpoint strip_invalid_prefix (chars : list QChar) (part : QString) : QString :=
  match chars with
  | [] => part
  | k :: ks =>
      if startsWith k part then skipn 1 part
      else strip_invalid_prefix ks part
  end.

(** Lines 169 to 182. *)
Definition fix_parts (filepath : QString) : QString :=
  join slash
    (map (fun part => trimmed (strip_invalid_prefix kInvalidPrefixCharacters part))
         (split slash filepath)).

(** Lines 119 to 191: everything after the rejection test. *)
Definition sanitize (song : Song) (extension filepath : QString) : QString :=
  let filepath := simplified (remove_characters filepath) in
  let extension := fixup_extension song extension filepath in
  let filepath := fix_parts (without_suffix filepath) in
  let filepath :=
    if replace_spaces_ this
    then replace_class regex_space (qs "_") filepath else filepath in
  if negb (isEmpty extension) then filepath ++ dot :: extension else filepath.

(** The evaluated template (line 92); the recursion of [ParseBlock] is
    bounded by the length of the template. *)
Definition evaluate_format (song : Song) : result (QString * bool) :=
  '(filepath, unique_filename, _) <-
     ParseBlock (S (length (format_ this))) (format_ this) song false ;;
  Ok (filepath, unique_filename).

Definition GetFilenameForSong (song : Song) (extension : QString)
    : result GetFilenameForSongResult :=
  '(filepath, unique_filename) <- evaluate_format song ;;
  let filepath := fallback_basefilename song filepath in
  if is_rejected filepath then Ok Rejected
  else Ok (Rendered (sanitize song extension filepath) unique_filename).

End Render.

(** ** A concrete platform and concrete records

    Used by the examples below.  The dot as the invalid prefix character
    follows the comment at line 168 of the source ("parts of the path that
    start with dots"); the sets of characters are small samples of what the
    patterns name; the transliteration and the decomposition table do
    nothing. *)

Definition in_chars (s : string) (c : QChar) : bool := contains c (qs s).

Definition is_digit (c : QChar) : bool := N.leb 48 c && N.leb c 57.

(** The characters of a decimal number. *)
Definition is_number_char (c : QChar) : bool :=
  is_digit c || QChar_eqb c (QLatin1Char "-").

Definition ascii_toUpper (c : QChar) : QChar :=
  if N.leb 97 c && N.leb c 122 then (c - 32)%N else c.

Definition sample_platform : Platform := {|
  isProblematicCharacter := in_chars ":?";
  isInvalidFatCharacter := fun c =>
    negb (regex_letter c || is_digit c || in_chars "!#$%&'()-@^_`{}~/. " c);
  isInvalidDirCharacter := in_chars "/\";
  kInvalidPrefixCharacters := [dot];
  Transliterate := fun s => s;
  decomposition := fun _ => [];
  toUpper := ascii_toUpper
|}.

(** A record with the given texts and numbers, every other field unset. *)
Definition sample_song (title_ album_ albumartist_ : string) (year_ track_ : Z)
    (file_ : string) : Song := {|
  title := qs title_; album := qs album_; artist := qs albumartist_;
  composer := []; performer := []; grouping := []; lyrics := [];
  genre := []; comment := [];
  year := year_; effective_originalyear := year_; track := track_; disc := 0;
  length_nanosec := 0; bitrate := 0; samplerate := 0; bitdepth := 0;
  url_toLocalFile := qs file_;
  effective_albumartist := qs albumartist_;
  is_compilation := false;
  basefilename := fileName (qs file_)
|}.

(** ** The loops seen from the scan position

    Both loops of [ParseBlock] leave the text before [pos] alone; what they
    make of the text from [pos] on is described by two functions on that
    remainder, which the loops are proved to compute. *)

Definition starts_with_letter (s : QString) : bool :=
  match s with [] => false | c :: _ => regex_letter c end.

Definition prefix_text (done : QString) (r : result (QString * bool * bool))
    : result (QString * bool * bool) :=
  '(text, have_tagdata, empty) <- r ;; Ok (done ++ text, have_tagdata, empty).

Definition prefix_block (done : QString) (r : result (QString * bool))
    : result (QString * bool) :=
  '(text, have_tagdata) <- r ;; Ok (done ++ text, have_tagdata).

Section Views.

Context {P : Platform}.
Variable this : OrganizeFormat.

Fixpoint expand_tags (song : Song) (fuel : nat) (todo : QString)
    (have_tagdata empty : bool) : result (QString * bool * bool) :=
  match fuel with
  | O => OutOfFuel
  | S fuel' =>
      match find_tag todo 0 with
      | None => Ok (todo, have_tagdata, empty)
      | Some (i, tag) =>
          value <- TagValue this tag song ;;
          let empty' := if isEmpty value then true else empty in
          let have' :=
            if isEmpty value then have_tagdata
            else if QStringList_contains kUniqueTags tag then true
                 else have_tagdata in
          prefix_text (firstn i todo ++ value)
            (expand_tags song fuel' (skipn (i + S (length tag)) todo) have' empty')
      end
  end.

Fixpoint expand_blocks (rec : QString -> bool -> result (QString * bool * bool))
    (fuel : nat) (todo : QString) (have_tagdata : bool)
    : result (QString * bool) :=
  match fuel with
  | O => OutOfFuel
  | S fuel' =>
      match find_block todo 0 with
      | None => Ok (todo, have_tagdata)
      | Some (i, captured) =>
          '(value, have', empty) <- rec captured have_tagdata ;;
          let value := if (empty : bool) then [] else value in
          prefix_block (firstn i todo ++ value)
            (expand_blocks rec fuel' (skipn (i + (length captured + 2)) todo) have')
      end
  end.

(** The views with the iteration bounds [ParseBlock] gives the loops. *)
Definition render_tags (song : Song) (todo : QString) (have_tagdata empty : bool)
    : result (QString * bool * bool) :=
  expand_tags song (S (length todo)) todo have_tagdata empty.

Definition render_blocks (rec : QString -> bool -> result (QString * bool * bool))
    (todo : QString) (have_tagdata : bool) : result (QString * bool) :=
  expand_blocks rec (S (length todo)) todo have_tagdata.

End Views.

(** ** The two results of the sanitizer

    The path [sanitize] returns is a stem, made from the candidate, followed
    by the extension, which is appended as it is. *)

Section SanitizerParts.

Context {P : Platform}.
Variable this : OrganizeFormat.

Definition sanitize_stem (filepath : QString) : QString :=
  let filepath := fix_parts (without_suffix (simplified (remove_characters this filepath))) in
  if replace_spaces_ this
  then replace_class regex_space (qs "_") filepath else filepath.

Definition sanitize_extension (song : Song) (extension filepath : QString) : QString :=
  fixup_extension song extension (simplified (remove_characters this filepath)).

Definition append_extension (stem extension : QString) : QString :=
  if negb (isEmpty extension) then stem ++ dot :: extension else stem.

End SanitizerParts.

(** A whitespace character that is the plain space, or no whitespace. *)
Definition plain_space (c : QChar) : bool :=
  negb (isSpace c) || QChar_eqb c 32%N.

Definition no_space (c : QChar) : bool := negb (isSpace c).

(** Whitespace as [simplified] leaves it: every whitespace character is the
    plain space and is not followed by another one. *)
Definition starts_with_space (s : QString) : bool :=
  match s with [] => false | c :: _ => isSpace c end.

Fixpoint ends_with_space (s : QString) : bool :=
  match s with
  | [] => false
  | [c] => isSpace c
  | _ :: r => ends_with_space r
  end.

Fixpoint sparse (s : QString) : bool :=
  match s with
  | [] => true
  | c :: r =>
      (if isSpace c then QChar_eqb c 32%N && negb (starts_with_space r) else true)
      && sparse r
  end.

(** A character that is neither a dot, nor a slash, nor whitespace. *)
Definition extension_char (c : QChar) : bool :=
  negb (QChar_eqb c dot) && negb (QChar_eqb c slash) && no_space c.

(** The part starts with one of the invalid prefix characters. *)
Definition has_invalid_prefix {P : Platform} (part : QString) : bool :=
  existsb (fun k => startsWith k part) kInvalidPrefixCharacters.

(** The template of the nested sections. *)
Definition nested_template : QString := qs "{%album ({%year})}".

(** The threshold of the ASCII filter (lines 130 and 131). *)
Definition ascii_limit (this : OrganizeFormat) : N :=
  if allow_ascii_ext_ this then 255%N else 128%N.

(** The number of occurrences of a character. *)
Definition count (c : QChar) (s : QString) : nat :=
  length (filter (QChar_eqb c) s).

(** ** The Qt functions on examples *)

Example number_examples :
  number 7 = qs "7" /\ number 12 = qs "12" /\ number 0 = qs "0" /\
  number (-1) = qs "-1" /\ number 2147483647 = qs "2147483647" /\
  number (-2147483648) = qs "-2147483648".
Proof. repeat split; reflexivity. Qed.

Example fileinfo_examples :
  path (qs "a/b/c.tar.gz") = qs "a/b" /\
  completeBaseName (qs "a/b/c.tar.gz") = qs "c.tar" /\
  suffix (qs "a/b/c.tar.gz") = qs "gz" /\
  path (qs "c") = qs "." /\ path (qs "/c") = qs "/" /\ path (qs "") = qs "" /\
  completeBaseName (qs ".mp3") = qs "" /\ suffix (qs ".mp3") = qs "mp3" /\
  path (qs "a/") = qs "a" /\ completeBaseName (qs "a/") = qs "".
Proof. repeat split; reflexivity. Qed.

Example string_examples :
  simplified (qs "  a   b ") = qs "a b" /\
  trimmed (qs "  a   b ") = qs "a   b" /\
  split slash (qs "a//b") = [qs "a"; qs ""; qs "b"] /\
  split slash (qs "") = [qs ""] /\
  section_0_m2 slash (qs "a/b/c") = qs "a/b" /\
  section_0_m2 slash (qs "/c") = qs "" /\
  section_0_m2 slash (qs "//c") = qs "/".
Proof. repeat split; reflexivity. Qed.

(** ** Facts about the string functions *)

Lemma QChar_eqb_eq (a b : QChar) : QChar_eqb a b = true <-> a = b.
Proof. apply N.eqb_eq. Qed.

Lemma QChar_eqb_refl (a : QChar) : QChar_eqb a a = true.
Proof. apply N.eqb_refl. Qed.

Lemma QString_eqb_eq (a b : QString) : QString_eqb a b = true <-> a = b.
Proof.
  revert b; induction a as [|x a IH]; intros [|y b]; simpl; split;
    try congruence; try reflexivity.
  - intros H. apply andb_true_iff in H as [Hx Hr].
    apply QChar_eqb_eq in Hx. apply IH in Hr. congruence.
  - intros H. inversion H; subst. rewrite QChar_eqb_refl. simpl. now apply IH.
Qed.

Lemma QString_eqb_refl (a : QString) : QString_eqb a a = true.
Proof. now apply QString_eqb_eq. Qed.

Lemma dropWhile_nil_or_head p s :
  dropWhile p s = [] \/ exists c r, dropWhile p s = c :: r /\ p c = false.
Proof.
  induction s as [|c r IH]; simpl; [now left|].
  destruct (p c) eqn:E; [exact IH|]. right. now exists c, r.
Qed.

Lemma dropWhile_id p c r : p c = false -> dropWhile p (c :: r) = c :: r.
Proof. intros H. simpl. now rewrite H. Qed.

Lemma dropWhile_all p s : forallb p s = true -> dropWhile p s = [].
Proof.
  induction s as [|c r IH]; simpl; [reflexivity|].
  intros H. apply andb_true_iff in H as [Hc Hr]. rewrite Hc. auto.
Qed.

Lemma dropWhile_nil_all p s : dropWhile p s = [] -> forallb p s = true.
Proof.
  induction s as [|c r IH]; simpl; [reflexivity|].
  destruct (p c); [auto | discriminate].
Qed.

(** A trimmed string neither starts nor ends with whitespace. *)
Lemma trimmed_last s l c : trimmed s = l ++ [c] -> isSpace c = false.
Proof.
  unfold trimmed. intros H.
  destruct (dropWhile_nil_or_head isSpace (rev (dropWhile isSpace s)))
    as [E | (d & r & E & Hd)]; rewrite E in H.
  - destruct l; discriminate.
  - simpl in H. apply app_inj_tail in H as [_ <-]. exact Hd.
Qed.

Lemma trimmed_no_space s :
  forallb (fun c => negb (isSpace c)) s = true -> trimmed s = s.
Proof.
  intros H. unfold trimmed.
  assert (E : forall t, forallb (fun c => negb (isSpace c)) t = true ->
                        dropWhile isSpace t = t).
  { intros [|c r]; simpl; [reflexivity|].
    intros Ht. apply andb_true_iff in Ht as [Hc _].
    apply negb_true_iff in Hc. now rewrite Hc. }
  rewrite (E s H). rewrite E; [apply rev_involutive|].
  rewrite forallb_forall in *. intros x Hx. apply H. now apply in_rev.
Qed.

Lemma remove_class_id p s :
  forallb (fun c => negb (p c)) s = true -> remove_class p s = s.
Proof.
  unfold remove_class. induction s as [|c r IH]; simpl; [reflexivity|].
  intros H. apply andb_true_iff in H as [Hc Hr]. rewrite Hc. f_equal. auto.
Qed.

(** *** Decimal numbers *)

Lemma is_digit_digit_char n : is_digit (digit_char (n mod 10)) = true.
Proof.
  unfold is_digit, digit_char.
  assert (H : (n mod 10 < 10)%N) by (apply N.mod_lt; discriminate).
  revert H. generalize (n mod 10)%N. intros m H.
  apply andb_true_iff; split; apply N.leb_le; lia.
Qed.

Lemma digits_from_is_digit fuel : forall n acc,
  forallb is_digit acc = true -> forallb is_digit (digits_from fuel n acc) = true.
Proof.
  induction fuel as [|f IH]; intros n acc H; simpl; [exact H|].
  assert (H' : forallb is_digit (digit_char (n mod 10) :: acc) = true).
  { simpl. now rewrite is_digit_digit_char. }
  destruct (N.eqb (n / 10) 0); [exact H' | now apply IH].
Qed.

Lemma digits_from_length fuel : forall n acc,
  length acc <= length (digits_from fuel n acc).
Proof.
  induction fuel as [|f IH]; intros n acc; simpl; [lia|].
  destruct (N.eqb (n / 10) 0); simpl; [lia|].
  specialize (IH (n / 10)%N (digit_char (n mod 10) :: acc)). simpl in IH. lia.
Qed.

Lemma digits_small n :
  (n < 10)%N -> digits_from (S (N.size_nat n)) n [] = [digit_char n].
Proof.
  intros H. simpl. rewrite (N.div_small n 10 H). simpl.
  now rewrite (N.mod_small n 10 H).
Qed.

Lemma digits_large n :
  (10 <= n)%N -> 2 <= length (digits_from (S (N.size_nat n)) n []).
Proof.
  intros H. simpl.
  destruct (N.eqb (n / 10) 0) eqn:E.
  - apply N.eqb_eq in E.
    apply (proj1 (N.div_small_iff n 10 ltac:(discriminate))) in E. lia.
  - destruct n as [|p]; [lia|]. simpl N.size_nat.
    destruct (Pos.size_nat p) as [|k] eqn:Ek; [destruct p; discriminate|].
    simpl.
    destruct (N.eqb (N.pos p / 10 / 10) 0); simpl; [lia|].
    match goal with |- _ <= length (digits_from k ?m ?a) =>
      pose proof (digits_from_length k m a) as L end.
    simpl in L. lia.
Qed.

Lemma number_is_number_char z : forallb is_number_char (number z) = true.
Proof.
  unfold number.
  assert (D : forallb is_number_char
                (digits_from (S (N.size_nat (Z.abs_N z))) (Z.abs_N z) []) = true).
  { pose proof (digits_from_is_digit (S (N.size_nat (Z.abs_N z))) (Z.abs_N z) []
                  eq_refl) as H.
    rewrite forallb_forall in *. intros c Hc. unfold is_number_char.
    now rewrite (H c Hc). }
  destruct (Z.ltb z 0); [|exact D].
  cbn [forallb]. rewrite D. reflexivity.
Qed.

Lemma number_small z : (0 <= z <= 9)%Z -> number z = [digit_char (Z.to_N z)].
Proof.
  intros H. unfold number.
  replace (Z.ltb z 0) with false by (symmetry; apply Z.ltb_ge; lia).
  replace (Z.abs_N z) with (Z.to_N z) by (destruct z; simpl; try reflexivity; lia).
  apply digits_small. lia.
Qed.

Lemma number_large z : (10 <= z)%Z -> 2 <= length (number z).
Proof.
  intros H. unfold number.
  replace (Z.ltb z 0) with false by (symmetry; apply Z.ltb_ge; lia).
  apply digits_large. lia.
Qed.

Lemma number_negative z :
  (z < 0)%Z ->
  number z = QLatin1Char "-" :: digits_from (S (N.size_nat (Z.abs_N z))) (Z.abs_N z) [].
Proof.
  intros H. unfold number. now replace (Z.ltb z 0) with true by (symmetry; apply Z.ltb_lt; lia).
Qed.

(** The string form of a number is one character long exactly for 0..9. *)
Lemma number_length_1 z : length (number z) = 1 <-> (0 <= z <= 9)%Z.
Proof.
  split.
  - intros L. destruct (Z_lt_le_dec z 0) as [Hn | Hp].
    + rewrite (number_negative z Hn) in L. simpl length in L.
      pose proof (digits_from_length (N.size_nat (Z.abs_N z))
                    (Z.abs_N z / 10)%N [digit_char (Z.abs_N z mod 10)]) as D.
      simpl in L.
      destruct (N.eqb (Z.abs_N z / 10) 0); simpl in *; lia.
    + destruct (Z_le_gt_dec z 9); [lia|].
      pose proof (number_large z ltac:(lia)). lia.
  - intros H. now rewrite (number_small z H).
Qed.

Lemma number_is_0 z : number z = qs "0" <-> z = 0%Z.
Proof.
  split; [|intros ->; reflexivity].
  intros E. assert (L : length (number z) = 1) by now rewrite E.
  apply number_length_1 in L. rewrite (number_small z L) in E.
  change (qs "0") with [48%N] in E. injection E as E.
  unfold digit_char in E. lia.
Qed.

Lemma number_is_m1 z : number z = qs "-1" <-> z = (-1)%Z.
Proof.
  split; [|intros ->; reflexivity].
  intros E. destruct (Z_lt_le_dec z 0) as [Hn | Hp].
  - rewrite (number_negative z Hn) in E.
    change (qs "-1") with [QLatin1Char "-"; 49%N] in E. injection E as E.
    change (digits_from (S (N.size_nat (Z.abs_N z))) (Z.abs_N z) [] = [49%N]) in E.
    destruct (N.lt_ge_cases (Z.abs_N z) 10) as [Hs | Hl].
    + rewrite (digits_small _ Hs) in E. injection E as E.
      unfold digit_char in E. lia.
    + pose proof (digits_large _ Hl) as L. rewrite E in L. simpl in L. lia.
  - pose proof (number_is_number_char z) as D. rewrite E in D.
    assert (F : forallb is_digit (number z) = true).
    { unfold number.
      replace (Z.ltb z 0) with false by (symmetry; apply Z.ltb_ge; lia).
      now apply digits_from_is_digit. }
    rewrite E in F. discriminate F.
Qed.

(** *** Boolean tests as facts *)

Ltac bool_facts :=
  unfold QChar_eqb in *;
  repeat match goal with
  | H : (_ || _) = true |- _ => apply orb_true_iff in H; destruct H as [H | H]
  | H : (_ && _) = true |- _ =>
      let H' := fresh H in apply andb_true_iff in H; destruct H as [H' H]
  | H : (_ || _) = false |- _ =>
      let H' := fresh H in apply orb_false_iff in H; destruct H as [H' H]
  | H : negb _ = true |- _ => apply negb_true_iff in H
  | H : negb _ = false |- _ => apply negb_false_iff in H
  | H : N.eqb _ _ = true |- _ => apply N.eqb_eq in H
  | H : N.eqb _ _ = false |- _ => apply N.eqb_neq in H
  | H : N.leb _ _ = true |- _ => apply N.leb_le in H
  | H : N.leb _ _ = false |- _ => apply N.leb_gt in H
  | H : N.ltb _ _ = true |- _ => apply N.ltb_lt in H
  | H : N.ltb _ _ = false |- _ => apply N.ltb_ge in H
  end.

Lemma isSpace_cases c :
  isSpace c = true -> (c = 32 \/ (9 <= c <= 13) \/ 133 <= c)%N.
Proof. unfold isSpace. intros H. bool_facts; lia. Qed.

Lemma regex_space_isSpace c : regex_space c = true -> isSpace c = true.
Proof.
  unfold regex_space, isSpace. intros H.
  apply orb_true_iff in H. destruct H as [H | H]; rewrite H; simpl;
    [reflexivity | now rewrite orb_true_r].
Qed.

Lemma number_char_cases c :
  is_number_char c = true -> ((48 <= c <= 57) \/ c = 45)%N.
Proof.
  unfold is_number_char, is_digit. intros H. bool_facts; [lia|].
  right. exact H.
Qed.

(** ** C10: [set_format] against the constructor *)

Lemma replace_char_removes a b s :
  a <> b -> contains a (replace_char a b s) = false.
Proof.
  intros Hab. unfold contains, replace_char.
  induction s as [|c r IH]; cbn [map existsb]; [reflexivity|].
  rewrite IH, orb_false_r.
  destruct (QChar_eqb c a) eqn:E; apply N.eqb_neq.
  - exact Hab.
  - apply N.eqb_neq in E. congruence.
Qed.

Lemma replace_char_fixed a b s :
  a <> b -> (replace_char a b s = s <-> contains a s = false).
Proof.
  intros Hab. unfold contains, replace_char.
  induction s as [|c r IH]; cbn [map existsb]; [tauto|].
  destruct (QChar_eqb c a) eqn:E.
  - apply N.eqb_eq in E. subst c. rewrite QChar_eqb_refl. simpl.
    split; [|discriminate]. intros H. injection H as H _. congruence.
  - replace (QChar_eqb a c) with false
      by (symmetry; apply N.eqb_neq; apply N.eqb_neq in E; congruence).
    simpl. rewrite <- IH. split; [intros H; now injection H | congruence].
Qed.

(** C10.  [set_format] stores the string with every backslash replaced by a
    slash (same length, no backslash left, every other character and every
    switch unchanged); the constructor stores its argument as it is, so the
    two agree exactly on the strings without a backslash. *)
Theorem set_format_replaces_backslashes (v : QString) (this : OrganizeFormat) :
  format_ (set_format v this)
    = map (fun c => if QChar_eqb c backslash then slash else c) v
  /\ contains backslash (format_ (set_format v this)) = false
  /\ length (format_ (set_format v this)) = length v
  /\ format_ (OrganizeFormat_new v) = v
  /\ (format_ (OrganizeFormat_new v) = format_ (set_format v this)
      <-> contains backslash v = false)
  /\ format_ (OrganizeFormat_new (qs "a\b")) = qs "a\b"
  /\ format_ (set_format (qs "a\b") this) = qs "a/b".
Proof.
  assert (Hne : backslash <> slash) by discriminate.
  repeat split.
  - apply replace_char_removes, Hne.
  - simpl. unfold replace_char. apply length_map.
  - simpl. intros H. apply (replace_char_fixed _ _ v Hne). now symmetry.
  - simpl. intros H. symmetry. now apply (replace_char_fixed _ _ v Hne).
Qed.

(** ** C5: the track number *)

Section Track.

Context {P : Platform}.
Variable this : OrganizeFormat.

(** Digits and the minus sign pass the final cleanup of a value unchanged
    when the invalid-path-character set has none of them. *)
Lemma clean_value_number v :
  (forall c, is_number_char c = true -> isInvalidDirCharacter c = false) ->
  forallb is_number_char v = true ->
  clean_value this v = v.
Proof.
  intros Hdir Hv. unfold clean_value.
  rewrite forallb_forall in Hv.
  rewrite remove_class_id.
  2:{ apply forallb_forall. intros c Hc. now rewrite (Hdir c (Hv c Hc)). }
  assert (E : remove_char dot v = v).
  { apply remove_class_id. apply forallb_forall. intros c Hc.
    apply negb_true_iff. apply N.eqb_neq.
    destruct (number_char_cases c (Hv c Hc)) as [H | H];
      unfold dot, QLatin1Char; simpl; lia. }
  assert (T : trimmed v = v).
  { apply trimmed_no_space. apply forallb_forall. intros c Hc.
    apply negb_true_iff. destruct (isSpace c) eqn:S; [|reflexivity].
    apply isSpace_cases in S.
    destruct (number_char_cases c (Hv c Hc)); lia. }
  destruct (remove_problematic_ this); [rewrite E|]; exact T.
Qed.

Lemma suppress_sentinel_number z :
  suppress_sentinel (number z) = if (Z.eqb z 0 || Z.eqb z (-1))%bool then [] else number z.
Proof.
  unfold suppress_sentinel.
  destruct (Z.eqb z 0) eqn:E0.
  - apply Z.eqb_eq in E0. now subst z.
  - destruct (Z.eqb z (-1)) eqn:E1.
    + apply Z.eqb_eq in E1. now subst z.
    + simpl. apply Z.eqb_neq in E0, E1.
      destruct (QString_eqb (number z) (qs "0")) eqn:A.
      { apply QString_eqb_eq, number_is_0 in A. contradiction. }
      destruct (QString_eqb (number z) (qs "-1")) eqn:B.
      { apply QString_eqb_eq, number_is_m1 in B. contradiction. }
      reflexivity.
Qed.

(** C5.  The track number is suppressed before it is padded: 0 and -1 give
    the empty string, a value that is one character long after the
    suppression (the track numbers 1 to 9) gets a leading "0", every other
    value is kept; so 7 gives "07" and 12 gives "12". *)
Theorem TagValue_track (song : Song)
    (Hdir : forall c, is_number_char c = true -> isInvalidDirCharacter c = false) :
  let t := track song in
  let v := suppress_sentinel (number t) in
  TagValue this (qs "track") song
    = Ok (if Nat.eqb (length v) 1 then QLatin1Char "0" :: v else v)
  /\ (v = [] <-> t = 0 \/ t = -1)%Z
  /\ (length v = 1 <-> (1 <= t <= 9)%Z)
  /\ (t = 0 \/ t = -1 -> TagValue this (qs "track") song = Ok [])%Z
  /\ (t = 7%Z -> TagValue this (qs "track") song = Ok (qs "07"))
  /\ (t = 12%Z -> TagValue this (qs "track") song = Ok (qs "12")).
Proof.
  intros t v.
  assert (Hv : forallb is_number_char v = true).
  { unfold v. rewrite suppress_sentinel_number.
    destruct (Z.eqb t 0 || Z.eqb t (-1))%bool; [reflexivity|].
    apply number_is_number_char. }
  assert (HT : TagValue this (qs "track") song
               = Ok (if Nat.eqb (length v) 1 then QLatin1Char "0" :: v else v)).
  { unfold TagValue. change (tag_field (qs "track") song) with (Ok (number t)).
    simpl bind. unfold pad_track. fold v.
    change (QString_eqb (qs "track") (qs "track")) with true. simpl andb.
    f_equal. apply clean_value_number; [exact Hdir|].
    destruct (Nat.eqb (length v) 1); [|exact Hv].
    cbn [forallb]. now rewrite Hv. }
  assert (Hnil : (v = [] <-> t = 0 \/ t = -1)%Z).
  { unfold v. rewrite suppress_sentinel_number.
    destruct (Z.eqb t 0) eqn:E0; [apply Z.eqb_eq in E0; simpl; tauto|].
    destruct (Z.eqb t (-1)) eqn:E1; [apply Z.eqb_eq in E1; simpl; tauto|].
    apply Z.eqb_neq in E0, E1. simpl. split; [|tauto].
    intros E. exfalso.
    assert (L : length (number t) = 0) by now rewrite E.
    destruct (Z_lt_le_dec t 0) as [Hn | Hp].
    - rewrite (number_negative t Hn) in L. discriminate.
    - destruct (Z_le_gt_dec t 9) as [Hs | Hl].
      + rewrite (number_small t ltac:(lia)) in L. discriminate.
      + pose proof (number_large t ltac:(lia)). lia. }
  assert (Hone : (length v = 1 <-> (1 <= t <= 9)%Z)).
  { unfold v. rewrite suppress_sentinel_number.
    destruct (Z.eqb t 0) eqn:E0.
    { apply Z.eqb_eq in E0. simpl. split; [discriminate | lia]. }
    destruct (Z.eqb t (-1)) eqn:E1.
    { apply Z.eqb_eq in E1. simpl. split; [discriminate | lia]. }
    apply Z.eqb_neq in E0, E1. simpl. rewrite number_length_1. lia. }
  split; [exact HT|]. split; [exact Hnil|]. split; [exact Hone|].
  split; [|split]; intros H.
  - apply Hnil in H. rewrite HT, H. reflexivity.
  - rewrite HT. unfold v. rewrite H. reflexivity.
  - rewrite HT. unfold v. rewrite H. reflexivity.
Qed.

End Track.

Lemma sample_platform_keeps_numbers c :
  is_number_char c = true -> isInvalidDirCharacter (Platform := sample_platform) c = false.
Proof.
  intros H. apply number_char_cases in H. simpl. unfold in_chars. simpl.
  unfold QChar_eqb. rewrite orb_false_r. apply orb_false_iff.
  split; apply N.eqb_neq; unfold QLatin1Char; simpl; lia.
Qed.

Lemma TagValue_track_witness :
  TagValue (P := sample_platform) (OrganizeFormat_new [])
    (qs "track") (sample_song "T" "X" "A" 2001 7 "/m/a.flac") = Ok (qs "07").
Proof.
  exact (proj1 (proj2 (proj2 (proj2 (proj2
    (TagValue_track (P := sample_platform) (OrganizeFormat_new [])
       (sample_song "T" "X" "A" 2001 7 "/m/a.flac")
       sample_platform_keeps_numbers))))) eq_refl).
Defined.

(** ** C6: the artist initial *)

Lemma forallb_last {A} (p : A -> bool) l a :
  forallb p (l ++ [a]) = true -> p a = true.
Proof.
  rewrite forallb_app. simpl. intros H.
  apply andb_true_iff in H as [_ H]. now rewrite andb_true_r in H.
Qed.

(** What is left of a trimmed, non-empty string after the leading "the" and
    the whitespace behind it are removed is not empty: the pattern needs
    whitespace behind "the", and a trimmed string does not end with any. *)
Lemma remove_regex_the_trimmed s :
  trimmed s <> [] -> remove_regex_the (trimmed s) <> [].
Proof.
  intros Hne. unfold remove_regex_the.
  destruct (trimmed s) as [|t [|h [|e [|c r]]]] eqn:E; try exact Hne.
  match goal with |- (if ?b then _ else _) <> _ => destruct b eqn:B end;
    [|discriminate].
  intros D. apply dropWhile_nil_all in D.
  destruct (exists_last (l := c :: r) ltac:(discriminate)) as (l' & a & El).
  rewrite El in D, E. apply forallb_last in D. apply regex_space_isSpace in D.
  change (t :: h :: e :: l' ++ [a]) with ([t; h; e] ++ l' ++ [a]) in E.
  rewrite app_assoc in E. apply trimmed_last in E. congruence.
Qed.

Section ArtistInitial.

Context {P : Platform}.
Variable this : OrganizeFormat.

Lemma artistinitial_value_ok (albumartist : QString) :
  artistinitial_value albumartist
  = Ok (map toUpper (firstn 1 (remove_regex_the (trimmed albumartist)))).
Proof.
  unfold artistinitial_value.
  destruct (trimmed albumartist) as [|c r] eqn:E; [reflexivity|].
  cbn [isEmpty]. rewrite <- E.
  pose proof (remove_regex_the_trimmed albumartist) as H.
  destruct (remove_regex_the (trimmed albumartist)); [|reflexivity].
  exfalso. apply H; [rewrite E; discriminate | reflexivity].
Qed.

(** Looking a tag up never fails. *)
Lemma tag_field_ok (tag : QString) (song : Song) :
  exists value, tag_field tag song = Ok value.
Proof.
  unfold tag_field.
  repeat match goal with
  | |- exists v, (if ?b then _ else _) = Ok v => destruct b
  | |- exists v, Ok ?x = Ok v => now exists x
  end.
  rewrite artistinitial_value_ok. eauto.
Qed.

Lemma TagValue_ok (tag : QString) (song : Song) :
  exists value, TagValue this tag song = Ok value.
Proof.
  unfold TagValue. destruct (tag_field_ok tag song) as [v ->].
  simpl. eauto.
Qed.

(** C6.  The [artistinitial] branch returns for every album artist: the
    value is trimmed, a leading "the" with the whitespace behind it is
    removed, and the first character of what is left is upper-cased; the
    result is empty exactly when the trimmed value is; it is never out of
    range, in particular not for "The ", which gives "T"; and [TagValue]
    returns for the tag and every record, with this initial after the
    suppression of sentinels and the cleanup every value goes through. *)
Theorem artistinitial_total (song : Song) (albumartist : QString) :
  artistinitial_value albumartist
    = Ok (map toUpper (firstn 1 (remove_regex_the (trimmed albumartist))))
  /\ artistinitial_value albumartist <> OutOfRange
  /\ (artistinitial_value albumartist = Ok [] <-> trimmed albumartist = [])
  /\ artistinitial_value [] = Ok []
  /\ artistinitial_value (qs "The ") = Ok [toUpper (QLatin1Char "T")]
  /\ artistinitial_value (qs "The Band") = Ok [toUpper (QLatin1Char "B")]
  /\ tag_field (qs "artistinitial") song
       = artistinitial_value (effective_albumartist song)
  /\ TagValue this (qs "artistinitial") song
     = Ok (clean_value this (suppress_sentinel
             (map toUpper (firstn 1 (remove_regex_the
                (trimmed (effective_albumartist song))))))).
Proof.
  split; [apply artistinitial_value_ok|].
  split; [rewrite artistinitial_value_ok; discriminate|].
  split.
  { rewrite artistinitial_value_ok. split.
    - intros H. injection H as H.
      destruct (trimmed albumartist) as [|c r] eqn:E; [reflexivity|].
      exfalso. apply (remove_regex_the_trimmed albumartist);
        rewrite E; [discriminate|].
      destruct (remove_regex_the (c :: r)); [reflexivity | discriminate H].
    - intros ->. reflexivity. }
  repeat split; try reflexivity.
  unfold TagValue.
  change (tag_field (qs "artistinitial") song)
    with (artistinitial_value (effective_albumartist song)).
  rewrite artistinitial_value_ok. reflexivity.
Qed.

End ArtistInitial.

(** ** The patterns *)

Lemma takeWhile_dropWhile p s : takeWhile p s ++ dropWhile p s = s.
Proof.
  induction s as [|c r IH]; simpl; [reflexivity|].
  destruct (p c); simpl; [now rewrite IH | reflexivity].
Qed.

Lemma takeWhile_all p s : forallb p (takeWhile p s) = true.
Proof.
  induction s as [|c r IH]; simpl; [reflexivity|].
  destruct (p c) eqn:E; simpl; [now rewrite E | reflexivity].
Qed.

Lemma takeWhile_app p a b :
  forallb p a = true ->
  match b with [] => True | c :: _ => p c = false end ->
  takeWhile p (a ++ b) = a.
Proof.
  induction a as [|x a IH]; simpl; intros Ha Hb.
  - destruct b as [|c b]; simpl; [reflexivity | now rewrite Hb].
  - apply andb_true_iff in Ha as [Hx Ha]. rewrite Hx. f_equal. now apply IH.
Qed.

Lemma dropWhile_head p s :
  match dropWhile p s with [] => True | c :: _ => p c = false end.
Proof.
  destruct (dropWhile_nil_or_head p s) as [-> | (c & r & -> & H)];
    [exact I | exact H].
Qed.

Lemma skipn_length_app {A} (a b : list A) : skipn (length a) (a ++ b) = b.
Proof. induction a; simpl; auto. Qed.

Lemma firstn_length_app {A} (a b : list A) : firstn (length a) (a ++ b) = a.
Proof. induction a; simpl; [reflexivity | now f_equal]. Qed.

Lemma skipn_past_app {A} (a b : list A) n :
  skipn (length a + n) (a ++ b) = skipn n b.
Proof. induction a; simpl; auto. Qed.

Lemma find_tag_shift s : forall start,
  find_tag s start
  = match find_tag s 0 with
    | Some (i, tag) => Some (start + i, tag)
    | None => None
    end.
Proof.
  induction s as [|c r IH]; intros start; simpl; [reflexivity|].
  destruct (QChar_eqb c percent).
  - now rewrite Nat.add_0_r.
  - rewrite (IH (S start)), (IH 1).
    destruct (find_tag r 0) as [[i tag]|]; [|reflexivity].
    f_equal. f_equal. lia.
Qed.

Lemma starts_with_letter_spec s :
  starts_with_letter s = false <->
  match s with [] => True | c :: _ => regex_letter c = false end.
Proof. destruct s; simpl; tauto. Qed.

(** A match of the tag pattern: the text before it has no percent sign, the
    name is made of letters and what follows does not start with one. *)
Lemma find_tag_Some s : forall i tag,
  find_tag s 0 = Some (i, tag) ->
  exists pre rest,
    s = pre ++ percent :: tag ++ rest /\ i = length pre
    /\ contains percent pre = false
    /\ forallb regex_letter tag = true
    /\ starts_with_letter rest = false.
Proof.
  induction s as [|c r IH]; intros i tag; simpl; [discriminate|].
  destruct (QChar_eqb c percent) eqn:E.
  - intros H. injection H as <- <-. apply QChar_eqb_eq in E. subst c.
    exists [], (dropWhile regex_letter r). simpl.
    rewrite takeWhile_dropWhile, takeWhile_all.
    repeat split. apply starts_with_letter_spec, dropWhile_head.
  - rewrite find_tag_shift.
    destruct (find_tag r 0) as [[j t]|] eqn:F; [|discriminate].
    intros H. injection H as <- <-.
    destruct (IH j t eq_refl) as (pre & rest & -> & -> & Hp & Ht & Hr).
    exists (c :: pre), rest. simpl.
    unfold contains in *. cbn [existsb].
    replace (QChar_eqb percent c) with false
      by (symmetry; apply N.eqb_neq; apply N.eqb_neq in E; congruence).
    simpl. auto.
Qed.

Lemma find_tag_None s : find_tag s 0 = None <-> contains percent s = false.
Proof.
  induction s as [|c r IH]; simpl; [tauto|].
  unfold QChar_eqb. rewrite (N.eqb_sym percent c).
  destruct (N.eqb c percent); simpl; [split; discriminate|].
  rewrite find_tag_shift. rewrite <- IH.
  destruct (find_tag r 0) as [[i t]|]; split; congruence.
Qed.

Lemma find_tag_intro pre tag rest :
  contains percent pre = false ->
  forallb regex_letter tag = true ->
  starts_with_letter rest = false ->
  find_tag (pre ++ percent :: tag ++ rest) 0 = Some (length pre, tag).
Proof.
  intros Hp Ht Hr. induction pre as [|c pre IH]; simpl.
  - rewrite takeWhile_app; [reflexivity | exact Ht|].
    now apply starts_with_letter_spec.
  - simpl in Hp. apply orb_false_iff in Hp as [Hc Hp].
    unfold QChar_eqb in *. rewrite (N.eqb_sym c percent), Hc.
    rewrite find_tag_shift, (IH Hp). reflexivity.
Qed.

Lemma match_tag_view done todo :
  match_tag (done ++ todo) (length done) = find_tag todo (length done).
Proof. unfold match_tag. now rewrite skipn_length_app. Qed.

Lemma replace_at_view done pre value rest n mid :
  length mid = n ->
  replace_at (length done + length pre) n value (done ++ pre ++ mid ++ rest)
  = (done ++ pre ++ value) ++ rest.
Proof.
  intros <-. unfold replace_at.
  assert (F : firstn (length done + length pre) (done ++ pre ++ mid ++ rest)
              = done ++ pre).
  { rewrite app_assoc, <- length_app. apply firstn_length_app. }
  assert (S : skipn (length done + length pre + length mid)
                (done ++ pre ++ mid ++ rest) = rest).
  { replace (done ++ pre ++ mid ++ rest) with ((done ++ pre ++ mid) ++ rest)
      by (now rewrite <- !app_assoc).
    replace (length done + length pre + length mid)
      with (length (done ++ pre ++ mid)) by (rewrite !length_app; lia).
    apply skipn_length_app. }
  rewrite F, S. now rewrite <- !app_assoc.
Qed.

Lemma not_brace_lbrace c : QChar_eqb c lbrace = true -> not_brace c = false.
Proof. unfold not_brace. now intros ->. Qed.

Lemma block_at_Some s body :
  block_at s = Some body ->
  exists rest,
    s = lbrace :: body ++ rbrace :: rest
    /\ forallb not_brace body = true /\ body <> [].
Proof.
  unfold block_at. destruct s as [|c r]; [discriminate|].
  destruct (QChar_eqb c lbrace) eqn:E; [|discriminate].
  apply QChar_eqb_eq in E. subst c.
  pose proof (takeWhile_dropWhile not_brace r) as TD.
  pose proof (takeWhile_all not_brace r) as TA.
  destruct (takeWhile not_brace r) as [|b0 bs] eqn:T; [discriminate|].
  assert (K : skipn (length (b0 :: bs)) r = dropWhile not_brace r).
  { rewrite <- TD at 1. apply skipn_length_app. }
  rewrite K. destruct (dropWhile not_brace r) as [|c' rest] eqn:D; [discriminate|].
  destruct (QChar_eqb c' rbrace) eqn:E'; [|discriminate].
  apply QChar_eqb_eq in E'. subst c'.
  intros H. injection H as <-. exists rest.
  rewrite <- TD. repeat split; [exact TA | discriminate].
Qed.

Lemma find_block_shift s : forall start,
  find_block s start
  = match find_block s 0 with
    | Some (i, body) => Some (start + i, body)
    | None => None
    end.
Proof.
  induction s as [|c r IH]; intros start.
  - reflexivity.
  - cbn [find_block]. destruct (block_at (c :: r)).
    + now rewrite Nat.add_0_r.
    + rewrite (IH (S start)), (IH 1).
      destruct (find_block r 0) as [[i body]|]; [|reflexivity].
      f_equal. f_equal. lia.
Qed.

(** A match of the block pattern: braces around a non-empty text without
    braces. *)
Lemma find_block_Some s : forall i body,
  find_block s 0 = Some (i, body) ->
  exists pre rest,
    s = pre ++ lbrace :: body ++ rbrace :: rest /\ i = length pre
    /\ forallb not_brace body = true /\ body <> [].
Proof.
  induction s as [|c r IH]; intros i body.
  - discriminate.
  - cbn [find_block]. destruct (block_at (c :: r)) as [b|] eqn:B.
    + intros H. injection H as <- <-.
      destruct (block_at_Some _ _ B) as (rest & E & Hb & Hn).
      exists [], rest. now rewrite E.
    + rewrite find_block_shift.
      destruct (find_block r 0) as [[j b]|] eqn:F; [|discriminate].
      intros H. injection H as <- <-.
      destruct (IH j b eq_refl) as (pre & rest & -> & -> & Hb & Hn).
      exists (c :: pre), rest. auto.
Qed.

Lemma find_block_no_lbrace s :
  contains lbrace s = false -> find_block s 0 = None.
Proof.
  induction s as [|c r IH]; intros H; [reflexivity|].
  unfold contains in H. cbn [existsb] in H.
  apply orb_false_iff in H as [Hc Hr].
  cbn [find_block block_at]. unfold QChar_eqb in *.
  rewrite (N.eqb_sym c lbrace), Hc.
  rewrite find_block_shift, (IH Hr). reflexivity.
Qed.

Lemma not_brace_no_lbrace s :
  forallb not_brace s = true -> contains lbrace s = false.
Proof.
  unfold contains. induction s as [|c r IH]; simpl; [reflexivity|].
  intros H. apply andb_true_iff in H as [Hc Hr]. rewrite (IH Hr), orb_false_r.
  unfold not_brace in Hc. apply negb_true_iff, orb_false_iff in Hc as [Hc _].
  unfold QChar_eqb in *. now rewrite N.eqb_sym.
Qed.

Lemma match_block_view done todo :
  match_block (done ++ todo) (length done) = find_block todo (length done).
Proof. unfold match_block. now rewrite skipn_length_app. Qed.

(** *** The loops compute the views *)

Lemma prefix_text_app a b r :
  prefix_text a (prefix_text b r) = prefix_text (a ++ b) r.
Proof.
  destruct r as [[[t h] e]| |]; simpl; [|reflexivity..].
  now rewrite app_assoc.
Qed.

Lemma prefix_block_app a b r :
  prefix_block a (prefix_block b r) = prefix_block (a ++ b) r.
Proof.
  destruct r as [[t h]| |]; simpl; [|reflexivity..].
  now rewrite app_assoc.
Qed.

Lemma prefix_text_nil r : prefix_text [] r = r.
Proof. now destruct r as [[[t h] e]| |]. Qed.

Lemma prefix_block_nil r : prefix_block [] r = r.
Proof. now destruct r as [[t h]| |]. Qed.

Section Loops.

Context {P : Platform}.
Variable this : OrganizeFormat.
Variable song : Song.

Lemma tag_loop_view fuel : forall done todo have_tagdata empty,
  tag_loop this song fuel (done ++ todo) (length done) have_tagdata empty
  = prefix_text done (expand_tags this song fuel todo have_tagdata empty).
Proof.
  induction fuel as [|fuel IH]; intros done todo h e; [reflexivity|].
  cbn [tag_loop expand_tags]. rewrite match_tag_view, find_tag_shift.
  destruct (find_tag todo 0) as [[i tag]|] eqn:F; [|reflexivity].
  destruct (find_tag_Some _ _ _ F) as (pre & rest & -> & -> & _).
  destruct (TagValue this tag song) as [value| |]; [|reflexivity..].
  cbn [bind].
  change (percent :: tag ++ rest) with ((percent :: tag) ++ rest).
  rewrite replace_at_view by reflexivity.
  replace (length done + length pre + length value)
    with (length (done ++ pre ++ value)) by (rewrite !length_app; lia).
  rewrite IH, firstn_length_app.
  change (S (length tag)) with (length (percent :: tag)).
  rewrite skipn_past_app, skipn_length_app.
  rewrite prefix_text_app. reflexivity.
Qed.

Lemma block_loop_view rec fuel : forall done todo have_tagdata,
  block_loop rec fuel (done ++ todo) (length done) have_tagdata
  = prefix_block done (expand_blocks rec fuel todo have_tagdata).
Proof.
  induction fuel as [|fuel IH]; intros done todo h; [reflexivity|].
  cbn [block_loop expand_blocks]. rewrite match_block_view, find_block_shift.
  destruct (find_block todo 0) as [[i body]|] eqn:F; [|reflexivity].
  destruct (find_block_Some _ _ _ F) as (pre & rest & -> & -> & _).
  destruct (rec body h) as [[[value h'] empty]| |]; [|reflexivity..].
  cbn [bind].
  set (v := if empty then [] else value).
  replace (lbrace :: body ++ rbrace :: rest)
    with ((lbrace :: body ++ [rbrace]) ++ rest)
    by (simpl; now rewrite <- app_assoc).
  rewrite replace_at_view by (simpl; rewrite length_app; simpl; lia).
  replace (length done + length pre + length v)
    with (length (done ++ pre ++ v)) by (rewrite !length_app; lia).
  rewrite IH, firstn_length_app.
  replace (length body + 2) with (length (lbrace :: body ++ [rbrace]))
    by (simpl; rewrite length_app; simpl; lia).
  rewrite skipn_past_app, skipn_length_app.
  rewrite prefix_block_app. reflexivity.
Qed.

End Loops.

(** ** C8: termination *)

Ltac lens :=
  repeat first [rewrite length_app in * | progress cbn [length] in * ]; try lia.

Lemma count_app c a b : count c (a ++ b) = count c a + count c b.
Proof. unfold count. now rewrite filter_app, length_app. Qed.

Lemma count_cons_same c s : count c (c :: s) = S (count c s).
Proof. unfold count. simpl. now rewrite QChar_eqb_refl. Qed.

Lemma view_of_pos {A} (l : list A) pos :
  skipn pos l <> [] ->
  exists done, l = done ++ skipn pos l /\ pos = length done.
Proof.
  intros H. exists (firstn pos l). split; [now rewrite firstn_skipn|].
  rewrite length_firstn. destruct (Nat.le_gt_cases pos (length l)); [lia|].
  exfalso. apply H. apply skipn_all2. lia.
Qed.

(** Each replacement of a tag leaves one percent sign less to be scanned. *)
Lemma tag_step_decreases blk pos start tag value :
  match_tag blk pos = Some (start, tag) ->
  count percent
    (skipn (start + length value) (replace_at start (S (length tag)) value blk))
  < count percent (skipn pos blk).
Proof.
  intros M.
  assert (N : skipn pos blk <> []).
  { intros E. unfold match_tag in M. rewrite E in M. discriminate. }
  destruct (view_of_pos blk pos N) as (done & E & Hpos).
  revert M. rewrite E, Hpos, match_tag_view, skipn_length_app, find_tag_shift.
  generalize (skipn (length done) blk). intros todo.
  destruct (find_tag todo 0) as [[i t]|] eqn:F; [|discriminate].
  intros H. injection H as <- <-.
  destruct (find_tag_Some _ _ _ F) as (pre & rest & -> & -> & _).
  change (percent :: t ++ rest) with ((percent :: t) ++ rest).
  rewrite replace_at_view by reflexivity.
  replace (length done + length pre + length value)
    with (length (done ++ pre ++ value)) by (rewrite !length_app; lia).
  rewrite skipn_length_app.
  rewrite count_app. change ((percent :: t) ++ rest) with (percent :: t ++ rest).
  rewrite count_cons_same, count_app. lia.
Qed.

(** Each replacement of a block leaves at least one opening brace less to be
    scanned. *)
Lemma block_step_decreases blk pos start captured value :
  match_block blk pos = Some (start, captured) ->
  count lbrace
    (skipn (start + length value) (replace_at start (length captured + 2) value blk))
  < count lbrace (skipn pos blk).
Proof.
  intros M.
  assert (N : skipn pos blk <> []).
  { intros E. unfold match_block in M. rewrite E in M. discriminate. }
  destruct (view_of_pos blk pos N) as (done & E & Hpos).
  revert M. rewrite E, Hpos, match_block_view, skipn_length_app, find_block_shift.
  generalize (skipn (length done) blk). intros todo.
  destruct (find_block todo 0) as [[i b]|] eqn:F; [|discriminate].
  intros H. injection H as <- <-.
  destruct (find_block_Some _ _ _ F) as (pre & rest & -> & -> & _).
  replace (lbrace :: b ++ rbrace :: rest)
    with ((lbrace :: b ++ [rbrace]) ++ rest)
    by (simpl; now rewrite <- app_assoc).
  rewrite replace_at_view by (simpl; rewrite length_app; simpl; lia).
  replace (length done + length pre + length value)
    with (length (done ++ pre ++ value)) by (rewrite !length_app; lia).
  rewrite skipn_length_app.
  rewrite count_app. change ((lbrace :: b ++ [rbrace]) ++ rest)
    with (lbrace :: (b ++ [rbrace]) ++ rest).
  rewrite count_cons_same, count_app. lia.
Qed.

Section Termination.

Context {P : Platform}.
Variable this : OrganizeFormat.
Variable song : Song.

Lemma expand_tags_total fuel : forall todo have_tagdata empty,
  length todo < fuel ->
  exists r, expand_tags this song fuel todo have_tagdata empty = Ok r.
Proof.
  induction fuel as [|fuel IH]; intros todo h e L; [lia|].
  cbn [expand_tags].
  destruct (find_tag todo 0) as [[i tag]|] eqn:F; [|eauto].
  destruct (find_tag_Some _ _ _ F) as (pre & rest & -> & -> & _).
  destruct (TagValue_ok this tag song) as [value ->]. cbn [bind].
  change (percent :: tag ++ rest) with ((percent :: tag) ++ rest).
  change (S (length tag)) with (length (percent :: tag)).
  rewrite skipn_past_app, skipn_length_app.
  match goal with |- context [expand_tags _ _ _ _ ?h' ?e'] =>
    destruct (IH rest h' e') as [[[t h2] e2] ->] end.
  - lens.
  - simpl. eauto.
Qed.

Lemma expand_tags_mono fuel : forall fuel' todo have_tagdata empty r,
  expand_tags this song fuel todo have_tagdata empty = Ok r ->
  fuel <= fuel' ->
  expand_tags this song fuel' todo have_tagdata empty = Ok r.
Proof.
  induction fuel as [|fuel IH]; intros fuel' todo h e r H L; [discriminate|].
  destruct fuel' as [|fuel']; [lia|].
  cbn [expand_tags] in *.
  destruct (find_tag todo 0) as [[i tag]|]; [|exact H].
  destruct (TagValue this tag song) as [value| |]; try discriminate.
  cbn [bind] in *.
  match type of H with prefix_text _ ?x = _ => destruct x as [y| |] eqn:X end;
    try discriminate.
  rewrite (IH fuel' _ _ _ _ X); [exact H | lia].
Qed.

Lemma expand_tags_fuel fuel todo have_tagdata empty :
  length todo < fuel ->
  expand_tags this song fuel todo have_tagdata empty
  = render_tags this song todo have_tagdata empty.
Proof.
  intros L. unfold render_tags.
  destruct (expand_tags_total (S (length todo)) todo have_tagdata empty
              ltac:(lia)) as [r E].
  rewrite E. apply (expand_tags_mono _ _ _ _ _ _ E). lia.
Qed.

Lemma render_tags_ok todo have_tagdata empty :
  exists r, render_tags this song todo have_tagdata empty = Ok r.
Proof. apply expand_tags_total. lia. Qed.

(** The two equations of the tag pass. *)
Lemma render_tags_plain s have_tagdata empty :
  contains percent s = false ->
  render_tags this song s have_tagdata empty = Ok (s, have_tagdata, empty).
Proof.
  intros H. unfold render_tags. cbn [expand_tags].
  apply find_tag_None in H. now rewrite H.
Qed.

Lemma render_tags_step pre tag rest have_tagdata empty :
  contains percent pre = false ->
  forallb regex_letter tag = true ->
  starts_with_letter rest = false ->
  render_tags this song (pre ++ percent :: tag ++ rest) have_tagdata empty
  = value <- TagValue this tag song ;;
    prefix_text (pre ++ value)
      (render_tags this song rest
         (if isEmpty value then have_tagdata
          else if QStringList_contains kUniqueTags tag then true
               else have_tagdata)
         (if isEmpty value then true else empty)).
Proof.
  intros Hp Ht Hr. unfold render_tags at 1. cbn [expand_tags].
  rewrite (find_tag_intro _ _ _ Hp Ht Hr).
  destruct (TagValue this tag song) as [value| |]; [|reflexivity..].
  cbn [bind]. rewrite firstn_length_app.
  change (percent :: tag ++ rest) with ((percent :: tag) ++ rest).
  change (S (length tag)) with (length (percent :: tag)).
  rewrite skipn_past_app, skipn_length_app.
  rewrite expand_tags_fuel; [reflexivity|]. lens.
Qed.

Lemma expand_blocks_total rec fuel :
  (forall body h, forallb not_brace body = true -> exists r, rec body h = Ok r) ->
  forall todo have_tagdata,
  length todo < fuel ->
  exists r, expand_blocks rec fuel todo have_tagdata = Ok r.
Proof.
  intros Hrec. induction fuel as [|fuel IH]; intros todo h L; [lia|].
  cbn [expand_blocks].
  destruct (find_block todo 0) as [[i body]|] eqn:F; [|eauto].
  destruct (find_block_Some _ _ _ F) as (pre & rest & -> & -> & Hb & _).
  destruct (Hrec body h Hb) as [[[value h'] empty] ->]. cbn [bind].
  replace (lbrace :: body ++ rbrace :: rest)
    with ((lbrace :: body ++ [rbrace]) ++ rest)
    by (simpl; now rewrite <- app_assoc).
  replace (length body + 2) with (length (lbrace :: body ++ [rbrace]))
    by (simpl; rewrite length_app; simpl; lia).
  rewrite skipn_past_app, skipn_length_app.
  destruct (IH rest h') as [[t h2] ->].
  - lens.
  - simpl. eauto.
Qed.

(** The block loop only calls [rec] on texts without braces. *)
Lemma expand_blocks_ext rec1 rec2 fuel :
  (forall body h, forallb not_brace body = true -> rec1 body h = rec2 body h) ->
  forall todo have_tagdata,
  expand_blocks rec1 fuel todo have_tagdata
  = expand_blocks rec2 fuel todo have_tagdata.
Proof.
  intros Hrec. induction fuel as [|fuel IH]; intros todo h; [reflexivity|].
  cbn [expand_blocks].
  destruct (find_block todo 0) as [[i body]|] eqn:F; [|reflexivity].
  destruct (find_block_Some _ _ _ F) as (pre & rest & _ & _ & Hb & _).
  rewrite (Hrec body h Hb).
  destruct (rec2 body h) as [[[value h'] empty]| |]; [|reflexivity..].
  cbn [bind]. now rewrite IH.
Qed.

(** [ParseBlock] is the block pass followed by the tag pass. *)
Lemma ParseBlock_passes depth block have_tagdata :
  ParseBlock this (S depth) block song have_tagdata
  = '(block1, have1) <-
      render_blocks (fun b h => ParseBlock this depth b song h) block have_tagdata ;;
    render_tags this song block1 have1 false.
Proof.
  cbn [ParseBlock].
  pose proof (block_loop_view (fun b h => ParseBlock this depth b song h)
                (S (length block)) [] block have_tagdata) as B.
  simpl app in B. simpl length in B at 2. rewrite B, prefix_block_nil.
  fold (render_blocks (fun b h => ParseBlock this depth b song h) block have_tagdata).
  destruct (render_blocks _ block have_tagdata) as [[b1 h1]| |]; [|reflexivity..].
  cbn [bind].
  pose proof (tag_loop_view this song (S (length b1)) [] b1 h1 false) as T.
  simpl app in T. simpl length in T at 2. rewrite T, prefix_text_nil.
  reflexivity.
Qed.

Lemma ParseBlock_plain depth block have_tagdata :
  contains lbrace block = false ->
  ParseBlock this (S depth) block song have_tagdata
  = render_tags this song block have_tagdata false.
Proof.
  intros H. rewrite ParseBlock_passes. unfold render_blocks.
  cbn [expand_blocks]. now rewrite (find_block_no_lbrace _ H).
Qed.

Lemma ParseBlock_ok depth block have_tagdata :
  exists r, ParseBlock this (S (S depth)) block song have_tagdata = Ok r.
Proof.
  rewrite ParseBlock_passes.
  assert (Hrec : forall body h, forallb not_brace body = true ->
            exists r, (fun b h => ParseBlock this (S depth) b song h) body h = Ok r).
  { intros body h Hb. cbv beta.
    rewrite (ParseBlock_plain _ _ _ (not_brace_no_lbrace _ Hb)).
    apply render_tags_ok. }
  destruct (expand_blocks_total _ (S (length block)) Hrec block have_tagdata
              ltac:(lia)) as [[b1 h1] E].
  unfold render_blocks. rewrite E. cbn [bind]. apply render_tags_ok.
Qed.

Lemma ParseBlock_depth depth block have_tagdata :
  ParseBlock this (S (S depth)) block song have_tagdata
  = ParseBlock this 2 block song have_tagdata.
Proof.
  rewrite !ParseBlock_passes. unfold render_blocks.
  rewrite (expand_blocks_ext
             (fun b h => ParseBlock this (S depth) b song h)
             (fun b h => ParseBlock this 1 b song h)); [reflexivity|].
  intros body h Hb.
  now rewrite !(ParseBlock_plain _ _ _ (not_brace_no_lbrace _ Hb)).
Qed.

Lemma evaluate_format_ok :
  exists filepath unique_filename,
    evaluate_format this song = Ok (filepath, unique_filename).
Proof.
  unfold evaluate_format.
  destruct (format_ this) as [|c r] eqn:E.
  - simpl length. rewrite (ParseBlock_plain 0 [] false eq_refl).
    rewrite render_tags_plain by reflexivity. simpl. eauto.
  - simpl length.
    destruct (ParseBlock_ok (length r) (c :: r) false) as [[[t h] e] ->].
    simpl. eauto.
Qed.

(** C8.  Every iteration of the block loop leaves fewer opening braces, and
    every iteration of the tag loop fewer percent signs, in the text that is
    still to be scanned; so both loops stay within the bounds the model gives
    them, the recursion never goes deeper than two calls, and [ParseBlock]
    returns a result for every text and every record, the same one for
    every depth bound from two on. *)
Theorem ParseBlock_terminates (block : QString) (have_tagdata : bool) :
  (forall blk pos start captured value,
     match_block blk pos = Some (start, captured) ->
     count lbrace (skipn (start + length value)
                     (replace_at start (length captured + 2) value blk))
     < count lbrace (skipn pos blk))
  /\ (forall blk pos start tag value,
     match_tag blk pos = Some (start, tag) ->
     count percent (skipn (start + length value)
                      (replace_at start (S (length tag)) value blk))
     < count percent (skipn pos blk))
  /\ (forall depth, 2 <= depth ->
      exists r, ParseBlock this depth block song have_tagdata = Ok r
                /\ ParseBlock this 2 block song have_tagdata = Ok r)
  /\ (exists r, evaluate_format this song = Ok r).
Proof.
  split; [intros; now apply block_step_decreases|].
  split; [intros; now apply tag_step_decreases|].
  split.
  - intros [|[|d]] Hd; try lia.
    destruct (ParseBlock_ok d block have_tagdata) as [r E].
    exists r. split; [exact E|]. now rewrite <- (ParseBlock_depth d).
  - destruct evaluate_format_ok as (f & u & E). eauto.
Qed.

End Termination.

(** ** C4: rejection *)

Section Rejection.

Context {P : Platform}.
Variable this : OrganizeFormat.

Lemma isEmpty_nil s : isEmpty s = true <-> s = [].
Proof. destruct s; simpl; split; congruence. Qed.

Lemma is_rejected_spec candidate :
  is_rejected candidate = true <->
  candidate = []
  \/ (contains slash candidate = true /\ section_0_m2 slash candidate = []).
Proof.
  unfold is_rejected. rewrite orb_diag.
  rewrite orb_true_iff, andb_true_iff, !isEmpty_nil. tauto.
Qed.

(** C4.  With [candidate] the evaluated template after the fallback to the
    record's base file name, [GetFilenameForSong] returns the rejected result
    (which is no rendered path, in particular not an empty one) exactly when
    the candidate is empty or contains a slash whose directory portion, the
    segments but the last, is empty; in every other case it returns the
    sanitized candidate with the uniqueness flag. *)
Theorem GetFilenameForSong_rejects (song : Song) (extension : QString) :
  exists filepath unique_filename,
    evaluate_format this song = Ok (filepath, unique_filename)
    /\ let candidate := fallback_basefilename song filepath in
       (GetFilenameForSong this song extension = Ok Rejected <->
          candidate = []
          \/ (contains slash candidate = true
              /\ join slash (removelast (split slash candidate)) = []))
       /\ (GetFilenameForSong this song extension = Ok Rejected
           \/ GetFilenameForSong this song extension
              = Ok (Rendered (sanitize this song extension candidate) unique_filename))
       /\ (forall path unique,
             GetFilenameForSong this song extension = Ok Rejected ->
             GetFilenameForSong this song extension <> Ok (Rendered path unique))
       /\ (filepath = [] -> basefilename song = [] ->
           GetFilenameForSong this song extension = Ok Rejected).
Proof.
  destruct (evaluate_format_ok this song) as (filepath & unique & E).
  exists filepath, unique. split; [exact E|]. intros candidate.
  assert (G : GetFilenameForSong this song extension
              = Ok (if is_rejected candidate then Rejected
                    else Rendered (sanitize this song extension candidate) unique)).
  { unfold GetFilenameForSong. rewrite E. cbn [bind]. fold candidate.
    now destruct (is_rejected candidate). }
  split; [|split; [|split]].
  - rewrite G. fold (section_0_m2 slash candidate).
    rewrite <- is_rejected_spec.
    destruct (is_rejected candidate); split; congruence.
  - rewrite G. destruct (is_rejected candidate); auto.
  - intros path u ->. discriminate.
  - intros -> Hb. rewrite G.
    assert (C : candidate = []).
    { unfold candidate, fallback_basefilename. simpl isEmpty. cbv iota.
      rewrite Hb. reflexivity. }
    rewrite C. reflexivity.
Qed.

End Rejection.

(** The test of line 115 is made before the sanitizer runs: a candidate of
    one space is not rejected, and what the sanitizer makes of it, for a
    record whose file has no suffix, is the empty path. *)
Example rendered_path_may_be_empty :
  GetFilenameForSong (P := sample_platform) (OrganizeFormat_new (qs " "))
    (sample_song "T" "X" "A" 2001 7 "/m/a") []
  = Ok (Rendered [] false).
Proof. vm_compute. reflexivity. Qed.

(** ** C1: a section inside a section *)

Section Nested.

Context {P : Platform}.
Variable this : OrganizeFormat.
Variable song : Song.

Lemma clean_value_nil : clean_value this [] = [].
Proof. unfold clean_value. now destruct (remove_problematic_ this). Qed.

(** A numeric field that holds 0 or -1 resolves to the empty string. *)
Lemma TagValue_unset_number (tag : QString) (z : Z) :
  tag_field tag song = Ok (number z) -> z = 0%Z \/ z = (-1)%Z ->
  QString_eqb tag (qs "track") = false ->
  TagValue this tag song = Ok [].
Proof.
  intros F Hz Ht. unfold TagValue. rewrite F. cbn [bind].
  rewrite suppress_sentinel_number.
  replace (Z.eqb z 0 || Z.eqb z (-1))%bool with true
    by (destruct Hz as [-> | ->]; reflexivity).
  unfold pad_track. rewrite Ht. cbn [andb]. now rewrite clean_value_nil.
Qed.

Lemma expand_blocks_plain rec fuel s have_tagdata :
  0 < fuel -> contains lbrace s = false ->
  expand_blocks rec fuel s have_tagdata = Ok (s, have_tagdata).
Proof.
  intros L H. destruct fuel as [|fuel]; [lia|].
  cbn [expand_blocks]. now rewrite (find_block_no_lbrace _ H).
Qed.

Lemma nested_template_at_depth_2 (have_tagdata : bool) (value : QString) :
  TagValue this (qs "album") song = Ok value ->
  year song = 0%Z ->
  ParseBlock this 2 nested_template song have_tagdata
  = Ok (lbrace :: value ++ qs " ()}", have_tagdata, isEmpty value).
Proof.
  intros Ha Hy. unfold nested_template.
  assert (Y : TagValue this (qs "year") song = Ok []).
  { apply (TagValue_unset_number (qs "year") (year song));
      [reflexivity | now left | reflexivity]. }
  rewrite ParseBlock_passes. unfold render_blocks.
  cbn [expand_blocks].
  change (find_block (qs "{%album ({%year})}") 0) with (Some (9, qs "%year")).
  cbv iota beta.
  rewrite (ParseBlock_plain this song 0 (qs "%year") have_tagdata eq_refl).
  rewrite (render_tags_step this song [] (qs "year") [] have_tagdata false
             eq_refl eq_refl eq_refl).
  rewrite Y. cbn [bind isEmpty].
  rewrite render_tags_plain by reflexivity.
  cbn [prefix_text bind app].
  change (skipn (9 + (length (qs "%year") + 2)) (qs "{%album ({%year})}"))
    with (qs ")}").
  change (firstn 9 (qs "{%album ({%year})}")) with (qs "{%album (").
  rewrite expand_blocks_plain by (simpl; first [lia | reflexivity]).
  cbn [prefix_block bind].
  change ((qs "{%album (" ++ []) ++ qs ")}")
    with ([lbrace] ++ percent :: qs "album" ++ qs " ()}").
  rewrite (render_tags_step this song [lbrace] (qs "album") (qs " ()}")
             have_tagdata false eq_refl eq_refl eq_refl).
  rewrite Ha. cbn [bind].
  rewrite render_tags_plain by reflexivity.
  cbn [prefix_text bind].
  change (QStringList_contains kUniqueTags (qs "album")) with false.
  cbv iota. destruct (isEmpty value); reflexivity.
Qed.

(** C1, as the code has it.  For the template "{%album ({%year})}" and a
    record whose year is 0, the inner section collapses, but the block loop
    then goes on from the place of the replacement and never looks at the
    braces around it again: they stay in the text, the tag pass replaces
    %album between them, and an album that resolves to "X" gives "{X ()}". *)
Theorem nested_section_keeps_outer_braces
    (have_tagdata : bool) (value : QString) (depth : nat)
    (Halbum : TagValue this (qs "album") song = Ok value)
    (Hyear : year song = 0%Z)
    (Hdepth : 2 <= depth) :
  ParseBlock this depth nested_template song have_tagdata
  = Ok (lbrace :: value ++ qs " ()}", have_tagdata, isEmpty value)
  /\ (value = qs "X" ->
      ParseBlock this depth nested_template song have_tagdata
      = Ok (qs "{X ()}", have_tagdata, false)).
Proof.
  assert (E : ParseBlock this depth nested_template song have_tagdata
              = Ok (lbrace :: value ++ qs " ()}", have_tagdata, isEmpty value)).
  { destruct depth as [|[|d]]; try lia.
    rewrite ParseBlock_depth. now apply nested_template_at_depth_2. }
  split; [exact E|]. intros ->. exact E.
Qed.

End Nested.

Lemma nested_section_witness :
  ParseBlock (P := sample_platform) (OrganizeFormat_new nested_template) 2
    nested_template (sample_song "T" "X" "A" 0 7 "/m/a.flac") false
  = Ok (qs "{X ()}", false, false).
Proof.
  exact (proj1 (nested_section_keeps_outer_braces (P := sample_platform)
                  (OrganizeFormat_new nested_template)
                  (sample_song "T" "X" "A" 0 7 "/m/a.flac")
                  false (qs "X") 2 eq_refl eq_refl (le_n 2))).
Defined.

(** C1 as stated fails: the album resolves to "X", the year is 0, and the
    evaluation gives "{X ()}", braces included, not "X ()". *)
Lemma nested_section_counterexample :
  let song := sample_song "T" "X" "A" 0 7 "/m/a.flac" in
  let this := OrganizeFormat_new nested_template in
  TagValue (P := sample_platform) this (qs "album") song = Ok (qs "X")
  /\ year song = 0%Z
  /\ evaluate_format (P := sample_platform) this song = Ok (qs "{X ()}", false)
  /\ evaluate_format (P := sample_platform) this song <> Ok (qs "X ()", false)
  /\ contains lbrace (qs "{X ()}") = true.
Proof.
  cbv zeta. repeat split; try (vm_compute; reflexivity).
  vm_compute. discriminate.
Qed.

(** ** C9: a percent sign without a name *)

Lemma contains_app c a b : contains c (a ++ b) = contains c a || contains c b.
Proof. unfold contains. apply existsb_app. Qed.

Lemma starts_with_letter_app a b :
  starts_with_letter a = false -> starts_with_letter b = false ->
  starts_with_letter (a ++ b) = false.
Proof. destruct a; simpl; auto. Qed.

Lemma find_block_head body rest :
  forallb not_brace body = true -> body <> [] ->
  find_block (lbrace :: body ++ rbrace :: rest) 0 = Some (0, body).
Proof.
  intros Hb Hn. cbn [find_block block_at]. rewrite QChar_eqb_refl.
  assert (T : takeWhile not_brace (body ++ rbrace :: rest) = body).
  { apply takeWhile_app; [exact Hb | reflexivity]. }
  rewrite T. destruct body as [|b bs]; [contradiction|].
  rewrite skipn_length_app. now rewrite QChar_eqb_refl.
Qed.

Section BarePercent.

Context {P : Platform}.
Variable this : OrganizeFormat.
Variable song : Song.


(** Text without a percent sign is copied. *)
Lemma render_tags_skip s1 s2 have_tagdata empty :
  contains percent s1 = false ->
  render_tags this song (s1 ++ s2) have_tagdata empty
  = prefix_text s1 (render_tags this song s2 have_tagdata empty).
Proof.
  intros H1. destruct (find_tag s2 0) as [[i tag]|] eqn:F.
  - destruct (find_tag_Some _ _ _ F) as (pre & rest & -> & -> & Hp & Ht & Hr).
    rewrite app_assoc.
    rewrite !render_tags_step; try assumption.
    2:{ now rewrite contains_app, H1, Hp. }
    destruct (TagValue this tag song) as [v| |]; [|reflexivity..].
    cbn [bind]. now rewrite prefix_text_app, <- !app_assoc.
  - apply find_tag_None in F.
    rewrite (render_tags_plain this song s2 have_tagdata empty F).
    rewrite render_tags_plain; [reflexivity|].
    now rewrite contains_app, H1, F.
Qed.

(** The tag pass of a text is the tag pass of a first part followed by the
    tag pass of the rest, when the rest does not start with a letter. *)
Lemma render_tags_app n : forall s1 s2 have_tagdata empty,
  length s1 <= n ->
  starts_with_letter s2 = false ->
  render_tags this song (s1 ++ s2) have_tagdata empty
  = '(t1, h1, e1) <- render_tags this song s1 have_tagdata empty ;;
    prefix_text t1 (render_tags this song s2 h1 e1).
Proof.
  induction n as [|n IH]; intros s1 s2 h e L H2.
  - destruct s1; [|simpl in L; lia].
    rewrite (render_tags_plain this song [] h e eq_refl). cbn [bind app].
    now rewrite prefix_text_nil.
  - destruct (find_tag s1 0) as [[i tag]|] eqn:F.
    + destruct (find_tag_Some _ _ _ F) as (pre & rest & -> & -> & Hp & Ht & Hr).
      replace ((pre ++ percent :: tag ++ rest) ++ s2)
        with (pre ++ percent :: tag ++ rest ++ s2)
        by (rewrite <- !app_assoc; simpl; now rewrite <- app_assoc).
      rewrite !render_tags_step; try assumption.
      2:{ now apply starts_with_letter_app. }
      destruct (TagValue this tag song) as [v| |]; [|reflexivity..].
      cbn [bind]. rewrite IH; [|lens | exact H2].
      match goal with |- context [render_tags this song rest ?a ?b] =>
        destruct (render_tags this song rest a b) as [[[t h1] e1]| |] end;
        [|reflexivity..].
      cbn [bind prefix_text]. now rewrite prefix_text_app.
    + apply find_tag_None in F. rewrite render_tags_skip by exact F.
      rewrite (render_tags_plain this song s1 h e F). reflexivity.
Qed.



(** The loop of the source, with the bound [ParseBlock] gives it, computes
    the view. *)
Lemma tag_loop_render block have_tagdata empty :
  tag_loop this song (S (length block)) block 0 have_tagdata empty
  = render_tags this song block have_tagdata empty.
Proof.
  pose proof (tag_loop_view this song (S (length block)) [] block have_tagdata empty) as T.
  simpl app in T. simpl length in T at 2. rewrite T. apply prefix_text_nil.
Qed.


End BarePercent.


(** ** Properties of characters that the sanitizer preserves *)

Section Preserved.

Variable p : QChar -> bool.

Lemma forallb_dropWhile q s :
  forallb p s = true -> forallb p (dropWhile q s) = true.
Proof.
  induction s as [|c r IH]; simpl; [auto|].
  intros H. destruct (q c); [|exact H].
  apply andb_true_iff in H as [_ H]. auto.
Qed.

Lemma forallb_rev s : forallb p (rev s) = forallb p s.
Proof.
  induction s as [|c r IH]; simpl; [reflexivity|].
  rewrite forallb_app, IH. simpl. rewrite andb_true_r. apply andb_comm.
Qed.

Lemma forallb_trimmed s : forallb p s = true -> forallb p (trimmed s) = true.
Proof.
  intros H. unfold trimmed. rewrite forallb_rev. apply forallb_dropWhile.
  rewrite forallb_rev. now apply forallb_dropWhile.
Qed.

Lemma forallb_skipn n s : forallb p s = true -> forallb p (skipn n s) = true.
Proof.
  revert s. induction n as [|n IH]; intros [|c r]; simpl; auto.
  intros H. apply andb_true_iff in H as [_ H]. auto.
Qed.

Lemma forallb_split sep s :
  forallb p s = true -> Forall (fun part => forallb p part = true) (split sep s).
Proof.
  induction s as [|c r IH]; simpl; intros H.
  - constructor; [reflexivity | constructor].
  - apply andb_true_iff in H as [Hc Hr]. specialize (IH Hr).
    destruct (QChar_eqb c sep).
    + constructor; [reflexivity | exact IH].
    + destruct (split sep r) as [|q qs].
      * constructor; [simpl; now rewrite Hc | constructor].
      * inversion IH; subst. constructor; [simpl; now rewrite Hc | assumption].
Qed.

Lemma forallb_join sep parts :
  p sep = true ->
  Forall (fun part => forallb p part = true) parts ->
  forallb p (join sep parts) = true.
Proof.
  intros Hsep H. induction H as [|q qs Hq Hqs IH]; [reflexivity|].
  cbn [join]. destruct qs as [|q' qs']; [exact Hq|].
  rewrite forallb_app, Hq. cbn [forallb andb]. now rewrite Hsep, IH.
Qed.

Lemma forallb_after_last c s t :
  forallb p s = true -> after_last c s = Some t -> forallb p t = true.
Proof.
  revert t. induction s as [|x r IH]; simpl; intros t H; [discriminate|].
  apply andb_true_iff in H as [Hx Hr].
  destruct (after_last c r) as [u|].
  - intros E. injection E as <-. now apply IH.
  - destruct (QChar_eqb x c); [|discriminate]. intros E. now injection E as <-.
Qed.

Lemma forallb_before_last c s t :
  forallb p s = true -> before_last c s = Some t -> forallb p t = true.
Proof.
  revert t. induction s as [|x r IH]; simpl; intros t H; [discriminate|].
  apply andb_true_iff in H as [Hx Hr].
  destruct (before_last c r) as [u|].
  - intros E. injection E as <-. simpl. rewrite Hx. now apply IH.
  - destruct (QChar_eqb x c); [|discriminate]. intros E. now injection E as <-.
Qed.

Lemma forallb_fileName s : forallb p s = true -> forallb p (fileName s) = true.
Proof.
  intros H. unfold fileName. destruct (after_last slash s) eqn:E; [|exact H].
  exact (forallb_after_last _ _ _ H E).
Qed.

Lemma forallb_completeBaseName s :
  forallb p s = true -> forallb p (completeBaseName s) = true.
Proof.
  intros H. unfold completeBaseName. apply forallb_fileName in H.
  destruct (before_last dot (fileName s)) eqn:E; [|exact H].
  exact (forallb_before_last _ _ _ H E).
Qed.

Lemma forallb_suffix s : forallb p s = true -> forallb p (suffix s) = true.
Proof.
  intros H. unfold suffix. apply forallb_fileName in H.
  destruct (after_last dot (fileName s)) eqn:E; [|reflexivity].
  exact (forallb_after_last _ _ _ H E).
Qed.

Hypothesis p_slash : p slash = true.
Hypothesis p_dot : p dot = true.

Lemma forallb_path s : forallb p s = true -> forallb p (path s) = true.
Proof.
  intros H. unfold path. destruct s as [|c r]; [reflexivity|].
  destruct (before_last slash (c :: r)) as [[|d ds]|] eqn:E.
  - simpl. now rewrite p_slash.
  - exact (forallb_before_last _ _ _ H E).
  - simpl. now rewrite p_dot.
Qed.

Lemma forallb_without_suffix s :
  forallb p s = true -> forallb p (without_suffix s) = true.
Proof.
  intros H. unfold without_suffix. rewrite forallb_app.
  rewrite (forallb_completeBaseName _ H), andb_true_r.
  destruct (negb (isEmpty (path s)) && negb (QString_eqb (path s) [dot]));
    [|reflexivity].
  rewrite forallb_app, (forallb_path _ H). simpl. now rewrite p_slash.
Qed.

Lemma forallb_strip_invalid_prefix chars part :
  forallb p part = true -> forallb p (strip_invalid_prefix chars part) = true.
Proof.
  intros H. induction chars as [|k ks IH]; cbn [strip_invalid_prefix]; [exact H|].
  destruct (startsWith k part); [|exact IH].
  exact (forallb_skipn 1 part H).
Qed.

Lemma forallb_fix_parts {P : Platform} s :
  forallb p s = true -> forallb p (fix_parts s) = true.
Proof.
  intros H. unfold fix_parts. apply forallb_join; [exact p_slash|].
  apply Forall_map. eapply Forall_impl; [|apply forallb_split, H].
  intros part Hp. now apply forallb_trimmed, forallb_strip_invalid_prefix.
Qed.

End Preserved.

Lemma simplify_from_plain_space pending s :
  forallb plain_space (simplify_from pending s) = true.
Proof.
  revert pending. induction s as [|c r IH]; intros pending; simpl; [reflexivity|].
  destruct (isSpace c) eqn:E; [apply IH|].
  assert (Hc : plain_space c = true) by (unfold plain_space; now rewrite E).
  destruct pending; simpl; now rewrite Hc, IH.
Qed.

Lemma simplified_plain_space s : forallb plain_space (simplified s) = true.
Proof. apply simplify_from_plain_space. Qed.

Lemma replace_class_no_space s :
  forallb plain_space s = true ->
  forallb no_space (replace_class regex_space (qs "_") s) = true.
Proof.
  unfold replace_class. induction s as [|c r IH]; simpl; [reflexivity|].
  intros H. apply andb_true_iff in H as [Hc Hr].
  rewrite forallb_app, (IH Hr), andb_true_r.
  destruct (regex_space c) eqn:E; [reflexivity|].
  simpl. rewrite andb_true_r. unfold no_space, plain_space in *.
  destruct (isSpace c); [|reflexivity]. simpl in Hc.
  apply QChar_eqb_eq in Hc. subst c. discriminate E.
Qed.

(** ** C3: whitespace when spaces are replaced *)

Section Whitespace.

Context {P : Platform}.
Variable this : OrganizeFormat.

Lemma sanitize_parts song extension filepath :
  sanitize this song extension filepath
  = append_extension (sanitize_stem this filepath)
      (sanitize_extension this song extension filepath).
Proof.
  unfold sanitize, append_extension, sanitize_stem, sanitize_extension.
  cbv zeta. now destruct (replace_spaces_ this).
Qed.

Lemma sanitize_stem_no_space filepath :
  replace_spaces_ this = true ->
  forallb no_space (sanitize_stem this filepath) = true.
Proof.
  intros H. unfold sanitize_stem. cbv zeta. rewrite H.
  apply replace_class_no_space.
  apply forallb_fix_parts; [reflexivity|].
  apply forallb_without_suffix; [reflexivity | reflexivity|].
  apply simplified_plain_space.
Qed.

(** C3, as the code has it.  With the replacement of spaces switched on, the
    path of a successful render is the stem the code computes (the simplified
    candidate without its suffix, its parts cleaned, every [\s] replaced by
    an underscore), which has no whitespace character, followed, when an
    extension was determined, by a dot and that extension as it is: the
    caller's extension when one is given, else the suffix of the simplified
    candidate, else the suffix of the record's file.  The extension is
    appended after the replacement and keeps its whitespace, so the path is
    free of whitespace exactly when the appended extension is. *)
Theorem replace_spaces_covers_the_stem
    (song : Song) (extension path : QString) (unique : bool)
    (Hreplace : replace_spaces_ this = true)
    (Hrender : GetFilenameForSong this song extension = Ok (Rendered path unique)) :
  exists filepath,
    evaluate_format this song = Ok (filepath, unique)
    /\ let simple :=
         simplified (remove_characters this (fallback_basefilename song filepath)) in
       let stem :=
         replace_class regex_space (qs "_") (fix_parts (without_suffix simple)) in
       let appended :=
         if isEmpty extension
         then if isEmpty (suffix simple) then suffix (url_toLocalFile song)
              else suffix simple
         else extension in
       path = (if isEmpty appended then stem else stem ++ dot :: appended)
       /\ forallb no_space stem = true
       /\ forallb no_space path = forallb no_space appended.
Proof.
  unfold GetFilenameForSong in Hrender.
  destruct (evaluate_format this song) as [[filepath u]| |]; try discriminate.
  cbn [bind] in Hrender.
  destruct (is_rejected (fallback_basefilename song filepath)); [discriminate|].
  injection Hrender as <- <-. exists filepath. split; [reflexivity|].
  set (candidate := fallback_basefilename song filepath).
  intros simple stem appended.
  assert (Hs : forallb no_space stem = true).
  { pose proof (sanitize_stem_no_space candidate Hreplace) as H.
    unfold sanitize_stem in H. cbv zeta in H. now rewrite Hreplace in H. }
  assert (Hp : sanitize this song extension candidate
               = (if isEmpty appended then stem else stem ++ dot :: appended)).
  { unfold sanitize. cbv zeta. rewrite Hreplace.
    fold simple. unfold fixup_extension. fold appended. fold stem.
    now destruct (isEmpty appended). }
  split; [exact Hp|]. split; [exact Hs|].
  rewrite Hp. destruct appended as [|c r]; cbn [isEmpty]; [exact Hs|].
  rewrite forallb_app, Hs. reflexivity.
Qed.

End Whitespace.

Lemma replace_spaces_witness :
  exists filepath,
    evaluate_format (P := sample_platform) (OrganizeFormat_new (qs "%artist/%title"))
      (sample_song "Mr Blue Sky" "X" "A" 1977 1 "/m/01.flac")
    = Ok (filepath, true)
    /\ let simple :=
         simplified (remove_characters (P := sample_platform)
                       (OrganizeFormat_new (qs "%artist/%title"))
                       (fallback_basefilename
                          (sample_song "Mr Blue Sky" "X" "A" 1977 1 "/m/01.flac")
                          filepath)) in
       let stem :=
         replace_class regex_space (qs "_")
           (fix_parts (P := sample_platform) (without_suffix simple)) in
       let appended :=
         if isEmpty (qs "m p3")
         then if isEmpty (suffix simple)
              then suffix (url_toLocalFile
                             (sample_song "Mr Blue Sky" "X" "A" 1977 1 "/m/01.flac"))
              else suffix simple
         else qs "m p3" in
       qs "A/Mr_Blue_Sky.m p3"
         = (if isEmpty appended then stem else stem ++ dot :: appended)
       /\ forallb no_space stem = true
       /\ forallb no_space (qs "A/Mr_Blue_Sky.m p3") = forallb no_space appended.
Proof.
  exact (replace_spaces_covers_the_stem (P := sample_platform)
           (OrganizeFormat_new (qs "%artist/%title"))
           (sample_song "Mr Blue Sky" "X" "A" 1977 1 "/m/01.flac")
           (qs "m p3") (qs "A/Mr_Blue_Sky.m p3") true eq_refl eq_refl).
Defined.

(** C3 as stated fails: spaces are replaced, the render succeeds, and the
    path contains the space of the caller's extension; without any override
    the text after a dot in a title is taken as the extension and keeps its
    spaces as well. *)
Lemma replace_spaces_counterexample :
  let this := OrganizeFormat_new (qs "%artist/%title") in
  replace_spaces_ this = true
  /\ GetFilenameForSong (P := sample_platform) this
       (sample_song "Mr Blue Sky" "X" "A" 1977 1 "/m/01.flac") (qs "m p3")
     = Ok (Rendered (qs "A/Mr_Blue_Sky.m p3") true)
  /\ existsb isSpace (qs "A/Mr_Blue_Sky.m p3") = true
  /\ GetFilenameForSong (P := sample_platform) this
       (sample_song "Mr. Blue Sky" "X" "A" 1977 1 "/m/01.flac") []
     = Ok (Rendered (qs "A/Mr. Blue Sky") true)
  /\ existsb isSpace (qs "A/Mr. Blue Sky") = true.
Proof. cbv zeta. repeat split; vm_compute; reflexivity. Qed.

(** ** C2: segments that start with an invalid prefix character *)

Lemma strip_invalid_prefix_once chars k rest :
  In k chars -> strip_invalid_prefix chars (k :: k :: rest) = k :: rest.
Proof.
  induction chars as [|k0 ks IH]; intros H; [contradiction|].
  cbn [strip_invalid_prefix startsWith].
  destruct (QChar_eqb k k0) eqn:E; [reflexivity|].
  apply IH. destruct H as [-> | H]; [|exact H].
  now rewrite QChar_eqb_refl in E.
Qed.

(** C2 fails on the code.  The loop at lines 173 to 178 removes one leading
    invalid prefix character and stops, so a segment that starts with two of
    them still starts with one afterwards; and the extension, with its own
    dot, is appended behind whatever the cleanup has left.  With the dot as the
    invalid prefix character, the title "...Baby One More Time" gives the
    segment "..Baby_One_More_Time.flac". *)
Theorem prefix_cleanup_strips_one_character :
  (forall (P : Platform) k rest,
     In k kInvalidPrefixCharacters ->
     strip_invalid_prefix kInvalidPrefixCharacters (k :: k :: rest) = k :: rest
     /\ startsWith k (strip_invalid_prefix kInvalidPrefixCharacters (k :: k :: rest))
        = true)
  /\ In dot (kInvalidPrefixCharacters (Platform := sample_platform))
  /\ GetFilenameForSong (P := sample_platform)
       (OrganizeFormat_new (qs "%artist/%title.%extension"))
       (sample_song "...Baby One More Time" "X" "A" 1999 1 "/m/01.flac") []
     = Ok (Rendered (qs "A/..Baby_One_More_Time.flac") true)
  /\ split slash (qs "A/..Baby_One_More_Time.flac")
     = [qs "A"; qs "..Baby_One_More_Time.flac"]
  /\ startsWith dot (qs "..Baby_One_More_Time.flac") = true
  /\ GetFilenameForSong (P := sample_platform)
       (OrganizeFormat_new (qs "%artist/%title"))
       (sample_song "...Baby One More Time" "X" "A" 1999 1 "/m/01.flac") (qs "mp3")
     = Ok (Rendered (qs "A/..mp3") true).
Proof.
  split.
  { intros P k rest H. rewrite (strip_invalid_prefix_once _ _ _ H).
    split; [reflexivity|]. cbn [startsWith]. apply QChar_eqb_refl. }
  split; [now left|].
  repeat split; vm_compute; reflexivity.
Qed.

(** ** C7: a second run of the sanitizer *)

(** *** The last occurrence of a character *)

Lemma after_last_None c s : after_last c s = None <-> contains c s = false.
Proof.
  unfold contains. induction s as [|x r IH]; simpl; [tauto|].
  unfold QChar_eqb in *. rewrite (N.eqb_sym c x).
  destruct (after_last c r) as [t|].
  - split; [discriminate|]. intros H. apply orb_false_iff in H as [_ H].
    apply IH in H. discriminate.
  - destruct (N.eqb x c); simpl; [split; discriminate|]. tauto.
Qed.

Lemma before_after_last c s :
  match before_last c s, after_last c s with
  | Some d, Some f => s = d ++ c :: f /\ contains c f = false
  | None, None => contains c s = false
  | _, _ => False
  end.
Proof.
  induction s as [|x r IH]; simpl; [reflexivity|].
  destruct (before_last c r) as [d|], (after_last c r) as [f|] eqn:A;
    try contradiction.
  - destruct IH as [-> Hf]. split; [reflexivity | exact Hf].
  - destruct (QChar_eqb x c) eqn:E.
    + apply QChar_eqb_eq in E. subst x. split; [reflexivity | exact IH].
    + unfold contains. cbn [existsb]. unfold contains in IH. rewrite IH.
      unfold QChar_eqb in *. rewrite N.eqb_sym, E. reflexivity.
Qed.

Lemma before_last_Some c s d :
  before_last c s = Some d ->
  exists f, after_last c s = Some f /\ s = d ++ c :: f /\ contains c f = false.
Proof.
  intros H. pose proof (before_after_last c s) as B. rewrite H in B.
  destruct (after_last c s) as [f|]; [|contradiction]. now exists f.
Qed.

Lemma before_last_None c s :
  before_last c s = None -> after_last c s = None /\ contains c s = false.
Proof.
  intros H. pose proof (before_after_last c s) as B. rewrite H in B.
  destruct (after_last c s) as [f|]; [contradiction|]. auto.
Qed.

(** Behind the last occurrence: text without the character changes nothing
    before it. *)
Lemma after_last_app c s t :
  contains c t = false ->
  after_last c (s ++ t)
  = match after_last c s with Some f => Some (f ++ t) | None => None end.
Proof.
  intros Ht. induction s as [|x r IH]; simpl.
  - apply after_last_None in Ht. exact Ht.
  - rewrite IH. destruct (after_last c r); [reflexivity|].
    destruct (QChar_eqb x c); reflexivity.
Qed.

Lemma before_last_app c s t :
  contains c t = false -> before_last c (s ++ t) = before_last c s.
Proof.
  intros Ht. induction s as [|x r IH]; simpl.
  - pose proof (before_after_last c t) as B.
    apply after_last_None in Ht. rewrite Ht in B.
    destruct (before_last c t); [contradiction | reflexivity].
  - rewrite IH. reflexivity.
Qed.

Lemma after_last_at c s t :
  contains c t = false -> after_last c (s ++ c :: t) = Some t.
Proof.
  intros Ht. induction s as [|x r IH]; simpl.
  - apply after_last_None in Ht. rewrite Ht. now rewrite QChar_eqb_refl.
  - now rewrite IH.
Qed.

Lemma before_last_at c s t :
  contains c t = false -> before_last c (s ++ c :: t) = Some s.
Proof.
  intros Ht. induction s as [|x r IH]; simpl.
  - pose proof (before_after_last c t) as B.
    apply after_last_None in Ht. rewrite Ht in B.
    destruct (before_last c t); [contradiction|]. now rewrite QChar_eqb_refl.
  - now rewrite IH.
Qed.

(** *** The file name of a stem with an extension appended *)

Section FileInfo.

Variables stem extension : QString.
Hypothesis no_slash : contains slash extension = false.
Hypothesis no_dot : contains dot extension = false.

Lemma contains_slash_dot_extension : contains slash (dot :: extension) = false.
Proof. unfold contains in *. cbn [existsb]. now rewrite no_slash. Qed.

Lemma fileName_with_extension :
  fileName (stem ++ dot :: extension) = fileName stem ++ dot :: extension.
Proof.
  unfold fileName. rewrite (after_last_app _ _ _ contains_slash_dot_extension).
  now destruct (after_last slash stem).
Qed.

Lemma suffix_with_extension : suffix (stem ++ dot :: extension) = extension.
Proof.
  unfold suffix. rewrite fileName_with_extension.
  now rewrite (after_last_at _ _ _ no_dot).
Qed.

Lemma completeBaseName_with_extension :
  completeBaseName (stem ++ dot :: extension) = fileName stem.
Proof.
  unfold completeBaseName. rewrite fileName_with_extension.
  now rewrite (before_last_at _ _ _ no_dot).
Qed.

Lemma before_last_slash_with_extension :
  before_last slash (stem ++ dot :: extension) = before_last slash stem.
Proof. apply before_last_app, contains_slash_dot_extension. Qed.

(** Taking the suffix off gives the stem back, unless the directory of the
    stem is empty or a single dot. *)
Lemma without_suffix_with_extension :
  before_last slash stem <> Some [] ->
  before_last slash stem <> Some [dot] ->
  without_suffix (stem ++ dot :: extension) = stem.
Proof.
  intros H1 H2. unfold without_suffix. rewrite completeBaseName_with_extension.
  unfold path. rewrite before_last_slash_with_extension.
  destruct (stem ++ dot :: extension) eqn:Q; [now destruct stem|]. clear Q.
  unfold fileName.
  destruct (before_last slash stem) as [d|] eqn:B.
  - destruct (before_last_Some _ _ _ B) as (f & -> & E & _).
    destruct d as [|d0 ds]; [now contradiction H1|].
    cbn [isEmpty negb andb].
    destruct (QString_eqb (d0 :: ds) [dot]) eqn:D.
    + apply QString_eqb_eq in D. rewrite D in H2. now contradiction H2.
    + cbn [negb]. rewrite E. now rewrite <- app_assoc.
  - destruct (before_last_None _ _ B) as [-> _]. reflexivity.
Qed.

End FileInfo.

(** *** Splitting and joining *)

Lemma split_not_nil sep s : split sep s <> [].
Proof.
  destruct s as [|c r]; simpl; [discriminate|].
  destruct (QChar_eqb c sep); [discriminate|].
  destruct (split sep r); discriminate.
Qed.

Lemma join_cons sep q qs :
  qs <> [] -> join sep (q :: qs) = q ++ sep :: join sep qs.
Proof. destruct qs; [contradiction | reflexivity]. Qed.

Lemma join_split sep s : join sep (split sep s) = s.
Proof.
  induction s as [|c r IH]; [reflexivity|].
  cbn [split]. destruct (QChar_eqb c sep) eqn:E.
  - apply QChar_eqb_eq in E. subst c.
    rewrite join_cons by apply split_not_nil. now rewrite IH.
  - pose proof (split_not_nil sep r) as N.
    destruct (split sep r) as [|q qs]; [contradiction|].
    destruct qs as [|q' qs'].
    + simpl in *. now rewrite IH.
    + rewrite join_cons by discriminate.
      rewrite join_cons in IH by discriminate.
      rewrite <- IH. reflexivity.
Qed.

Lemma split_no_sep sep s :
  Forall (fun part => contains sep part = false) (split sep s).
Proof.
  induction s as [|c r IH]; cbn [split].
  - constructor; [reflexivity | constructor].
  - destruct (QChar_eqb c sep) eqn:E.
    + constructor; [reflexivity | exact IH].
    + destruct (split sep r) as [|q qs].
      * constructor; [|constructor]. unfold contains. cbn [existsb].
        unfold QChar_eqb in *. now rewrite N.eqb_sym, E.
      * inversion IH; subst. constructor; [|assumption].
        unfold contains in *. cbn [existsb].
        unfold QChar_eqb in *. now rewrite N.eqb_sym, E.
Qed.

Lemma split_no_sep_id sep s : contains sep s = false -> split sep s = [s].
Proof.
  unfold contains. induction s as [|c r IH]; cbn [split existsb]; [reflexivity|].
  intros H. apply orb_false_iff in H as [Hc Hr].
  unfold QChar_eqb in *. rewrite N.eqb_sym, Hc. now rewrite (IH Hr).
Qed.

Lemma split_app_sep sep a b :
  contains sep a = false -> split sep (a ++ sep :: b) = a :: split sep b.
Proof.
  unfold contains. induction a as [|c r IH]; cbn [split existsb app].
  - now rewrite QChar_eqb_refl.
  - intros H. apply orb_false_iff in H as [Hc Hr].
    unfold QChar_eqb in *. rewrite N.eqb_sym, Hc.
    fold (QChar_eqb) in *. now rewrite (IH Hr).
Qed.

Lemma split_join sep parts :
  parts <> [] ->
  Forall (fun part => contains sep part = false) parts ->
  split sep (join sep parts) = parts.
Proof.
  intros N H. induction H as [|q qs Hq Hqs IH]; [contradiction|].
  destruct qs as [|q' qs'].
  - simpl. now apply split_no_sep_id.
  - rewrite join_cons by discriminate.
    rewrite (split_app_sep _ _ _ Hq). f_equal. apply IH. discriminate.
Qed.

Lemma split_head_space sep r q qs :
  split sep r = q :: qs -> starts_with_space q = true -> starts_with_space r = true.
Proof.
  destruct r as [|c r']; cbn [split].
  - intros H. injection H as <- _. discriminate.
  - destruct (QChar_eqb c sep).
    + intros H. injection H as <- _. discriminate.
    + destruct (split sep r'); intros H; injection H as <- _; auto.
Qed.

(** *** Whitespace at the ends *)

Lemma ends_with_space_snoc l c : ends_with_space (l ++ [c]) = isSpace c.
Proof.
  induction l as [|x l IH]; [reflexivity|].
  cbn [app ends_with_space]. rewrite IH.
  destruct (l ++ [c]) eqn:E; [now destruct l | reflexivity].
Qed.

Lemma ends_with_space_cons c r :
  r <> [] -> ends_with_space (c :: r) = ends_with_space r.
Proof. destruct r; [contradiction | reflexivity]. Qed.

Lemma trimmed_end s : ends_with_space (trimmed s) = false.
Proof.
  destruct (trimmed s) as [|c r] eqn:E; [reflexivity|].
  destruct (exists_last (l := c :: r) ltac:(discriminate)) as (l & a & El).
  rewrite El, ends_with_space_snoc. rewrite El in E.
  exact (trimmed_last _ _ _ E).
Qed.

Lemma dropWhile_suffix p s : exists a, s = a ++ dropWhile p s.
Proof.
  induction s as [|c r [a IH]]; simpl; [now exists []|].
  destruct (p c); [|now exists []].
  exists (c :: a). simpl. now rewrite <- IH.
Qed.

Lemma trimmed_infix s : exists a b, s = a ++ trimmed s ++ b.
Proof.
  unfold trimmed. destruct (dropWhile_suffix isSpace s) as [a Ha].
  destruct (dropWhile_suffix isSpace (rev (dropWhile isSpace s))) as [b Hb].
  exists a, (rev b). rewrite <- rev_app_distr, <- Hb, rev_involutive. exact Ha.
Qed.

Lemma trimmed_start s : starts_with_space (trimmed s) = false.
Proof.
  unfold trimmed.
  destruct (dropWhile_suffix isSpace (rev (dropWhile isSpace s))) as [b Hb].
  pose proof (dropWhile_head isSpace s) as Hh.
  destruct (dropWhile isSpace (rev (dropWhile isSpace s))) as [|x l] eqn:D;
    [reflexivity|].
  apply (f_equal (@rev QChar)) in Hb. rewrite rev_involutive, rev_app_distr in Hb.
  rewrite Hb in Hh.
  destruct (rev (x :: l)) as [|y l'] eqn:R.
  - apply (f_equal (@length QChar)) in R. rewrite length_rev in R. discriminate.
  - exact Hh.
Qed.

Lemma trimmed_fixed s :
  starts_with_space s = false -> ends_with_space s = false -> trimmed s = s.
Proof.
  intros Hs He. unfold trimmed.
  assert (D : dropWhile isSpace s = s).
  { destruct s as [|c r]; [reflexivity|]. simpl in Hs. simpl. now rewrite Hs. }
  rewrite D.
  destruct (rev s) as [|x l] eqn:R.
  - simpl. apply (f_equal (@rev QChar)) in R. now rewrite rev_involutive in R.
  - assert (S : s = rev l ++ [x]).
    { apply (f_equal (@rev QChar)) in R. now rewrite rev_involutive in R. }
    rewrite S, ends_with_space_snoc in He.
    simpl. rewrite He. simpl. now rewrite S.
Qed.

Lemma trimmed_idem s : trimmed (trimmed s) = trimmed s.
Proof. apply trimmed_fixed; [apply trimmed_start | apply trimmed_end]. Qed.

(** *** Sparse whitespace *)

Lemma sparse_app_r a b : sparse (a ++ b) = true -> sparse b = true.
Proof.
  induction a as [|c r IH]; [auto|]. cbn [app sparse].
  intros H. apply andb_true_iff in H as [_ H]. auto.
Qed.

Lemma sparse_app_l a b : sparse (a ++ b) = true -> sparse a = true.
Proof.
  induction a as [|c r IH]; [reflexivity|]. cbn [app sparse].
  intros H. apply andb_true_iff in H as [Hc H]. rewrite (IH H), andb_true_r.
  destruct (isSpace c); [|reflexivity].
  apply andb_true_iff in Hc as [-> Hc]. simpl.
  destruct r; [reflexivity | exact Hc].
Qed.

Lemma sparse_infix a m b : sparse (a ++ m ++ b) = true -> sparse m = true.
Proof. intros H. apply sparse_app_r in H. now apply sparse_app_l in H. Qed.

Lemma sparse_app a b :
  sparse a = true -> sparse b = true -> starts_with_space b = false ->
  sparse (a ++ b) = true.
Proof.
  intros Ha Hb Hs. induction a as [|c r IH]; [exact Hb|].
  cbn [app sparse] in *. apply andb_true_iff in Ha as [Hc Hr].
  rewrite (IH Hr), andb_true_r.
  destruct (isSpace c); [|reflexivity].
  apply andb_true_iff in Hc as [-> Hc]. simpl.
  destruct r; [simpl; now rewrite Hs | exact Hc].
Qed.

Lemma sparse_no_space s : forallb no_space s = true -> sparse s = true.
Proof.
  induction s as [|c r IH]; [reflexivity|]. cbn [forallb sparse].
  intros H. apply andb_true_iff in H as [Hc Hr]. unfold no_space in Hc.
  apply negb_true_iff in Hc. rewrite Hc. simpl. auto.
Qed.

Lemma sparse_trimmed s : sparse s = true -> sparse (trimmed s) = true.
Proof.
  intros H. destruct (trimmed_infix s) as (a & b & E).
  rewrite E in H. exact (sparse_infix _ _ _ H).
Qed.

Lemma sparse_skipn n s : sparse s = true -> sparse (skipn n s) = true.
Proof.
  intros H. rewrite <- (firstn_skipn n s) in H. exact (sparse_app_r _ _ H).
Qed.

Lemma sparse_split sep s :
  sparse s = true -> Forall (fun part => sparse part = true) (split sep s).
Proof.
  induction s as [|c r IH]; cbn [split]; intros H.
  - constructor; [reflexivity | constructor].
  - cbn [sparse] in H. apply andb_true_iff in H as [Hc Hr]. specialize (IH Hr).
    destruct (QChar_eqb c sep).
    + constructor; [reflexivity | exact IH].
    + destruct (split sep r) as [|q qs] eqn:S.
      * constructor; [|constructor]. cbn [sparse].
        destruct (isSpace c); [|reflexivity].
        apply andb_true_iff in Hc as [-> _]. reflexivity.
      * inversion IH; subst. constructor; [|assumption].
        cbn [sparse]. apply andb_true_iff. split; [|assumption].
        destruct (isSpace c); [|reflexivity].
        apply andb_true_iff in Hc as [-> Hc]. simpl.
        destruct (starts_with_space q) eqn:Q; [|reflexivity].
        rewrite (split_head_space _ _ _ _ S Q) in Hc. discriminate.
Qed.

Lemma sparse_join sep parts :
  isSpace sep = false ->
  Forall (fun part => sparse part = true) parts ->
  sparse (join sep parts) = true.
Proof.
  intros Hsep H. induction H as [|q qs Hq Hqs IH]; [reflexivity|].
  destruct qs as [|q' qs']; [exact Hq|].
  rewrite join_cons by discriminate.
  apply sparse_app; [exact Hq | | exact Hsep].
  cbn [sparse]. rewrite Hsep. exact IH.
Qed.

Lemma simplify_from_sparse pending s : sparse (simplify_from pending s) = true.
Proof.
  revert pending. induction s as [|c r IH]; intros pending; [reflexivity|].
  cbn [simplify_from]. destruct (isSpace c) eqn:E; [apply IH|].
  destruct pending; cbn [sparse starts_with_space]; rewrite E, IH; reflexivity.
Qed.

Lemma simplified_sparse s : sparse (simplified s) = true.
Proof. apply simplify_from_sparse. Qed.

(** A string with sparse whitespace and none at its ends is what
    [simplified] returns for it. *)
Lemma simplify_from_fixed s :
  sparse s = true -> ends_with_space s = false ->
  simplify_from false s = s
  /\ (starts_with_space s = false -> s <> [] ->
      simplify_from true s = 32%N :: s).
Proof.
  induction s as [|c r IH]; intros Hs He; [split; [reflexivity | congruence]|].
  cbn [sparse] in Hs. apply andb_true_iff in Hs as [Hc Hr].
  assert (Er : r <> [] -> ends_with_space r = false).
  { intros N. now rewrite <- (ends_with_space_cons c r N). }
  cbn [simplify_from starts_with_space].
  destruct (isSpace c) eqn:E.
  - apply andb_true_iff in Hc as [Hc Hn]. apply QChar_eqb_eq in Hc. subst c.
    apply negb_true_iff in Hn.
    assert (N : r <> []) by (intros ->; simpl in He; congruence).
    destruct (IH Hr (Er N)) as [_ IH2].
    split; [now rewrite (IH2 Hn N) | discriminate].
  - assert (F : simplify_from false r = r).
    { destruct r as [|d r']; [reflexivity|].
      apply IH; [exact Hr | apply Er; discriminate]. }
    now rewrite F.
Qed.

Lemma simplified_fixed s :
  sparse s = true -> starts_with_space s = false -> ends_with_space s = false ->
  simplified s = s.
Proof.
  intros Hs Hb He. unfold simplified.
  assert (D : dropWhile isSpace s = s).
  { destruct s as [|c r]; [reflexivity|]. simpl in Hb. simpl. now rewrite Hb. }
  rewrite D. now apply simplify_from_fixed.
Qed.

(** *** The stem *)

Lemma sparse_tail c r : sparse (c :: r) = true -> sparse r = true.
Proof. exact (sparse_app_r [c] r). Qed.

Lemma sparse_around c a b :
  isSpace c = false -> sparse a = true -> sparse b = true ->
  sparse (a ++ c :: b) = true.
Proof.
  intros Hc Ha Hb. apply sparse_app; [exact Ha | | exact Hc].
  cbn [sparse]. now rewrite Hc.
Qed.

Lemma sparse_after_last c s f :
  sparse s = true -> after_last c s = Some f -> sparse f = true.
Proof.
  intros H A. pose proof (before_after_last c s) as B. rewrite A in B.
  destruct (before_last c s) as [d|]; [|contradiction].
  destruct B as [-> _]. apply sparse_app_r in H. exact (sparse_tail _ _ H).
Qed.

Lemma sparse_before_last c s d :
  sparse s = true -> before_last c s = Some d -> sparse d = true.
Proof.
  intros H B. destruct (before_last_Some _ _ _ B) as (f & _ & -> & _).
  exact (sparse_app_l _ _ H).
Qed.

Lemma sparse_fileName s : sparse s = true -> sparse (fileName s) = true.
Proof.
  intros H. unfold fileName. destruct (after_last slash s) eqn:A; [|exact H].
  exact (sparse_after_last _ _ _ H A).
Qed.

Lemma sparse_completeBaseName s :
  sparse s = true -> sparse (completeBaseName s) = true.
Proof.
  intros H. apply sparse_fileName in H. unfold completeBaseName.
  destruct (before_last dot (fileName s)) eqn:B; [|exact H].
  exact (sparse_before_last _ _ _ H B).
Qed.

Lemma sparse_path s : sparse s = true -> sparse (path s) = true.
Proof.
  intros H. unfold path. destruct s as [|c r]; [reflexivity|].
  destruct (before_last slash (c :: r)) as [[|d ds]|] eqn:B; try reflexivity.
  exact (sparse_before_last _ _ _ H B).
Qed.

Lemma sparse_without_suffix s :
  sparse s = true -> sparse (without_suffix s) = true.
Proof.
  intros H. unfold without_suffix.
  destruct (negb (isEmpty (path s)) && negb (QString_eqb (path s) [dot])).
  - rewrite <- app_assoc. apply sparse_around; [reflexivity | |].
    + now apply sparse_path.
    + now apply sparse_completeBaseName.
  - now apply sparse_completeBaseName.
Qed.

Lemma sparse_strip_invalid_prefix chars part :
  sparse part = true -> sparse (strip_invalid_prefix chars part) = true.
Proof.
  intros H. induction chars as [|k ks IH]; cbn [strip_invalid_prefix]; [exact H|].
  destruct (startsWith k part); [|exact IH]. exact (sparse_skipn 1 part H).
Qed.

Lemma strip_invalid_prefix_none chars part :
  existsb (fun k => startsWith k part) chars = false ->
  strip_invalid_prefix chars part = part.
Proof.
  induction chars as [|k ks IH]; cbn [existsb strip_invalid_prefix]; [auto|].
  intros H. apply orb_false_iff in H as [-> H]. auto.
Qed.

Lemma contains_false_forallb c s :
  contains c s = false <-> forallb (fun x => negb (QChar_eqb x c)) s = true.
Proof.
  unfold contains. induction s as [|x r IH]; cbn [existsb forallb]; [tauto|].
  unfold QChar_eqb in *. rewrite (N.eqb_sym c x).
  destruct (N.eqb x c); simpl; [split; discriminate | exact IH].
Qed.

Lemma starts_with_space_join sep q qs :
  isSpace sep = false -> starts_with_space q = false ->
  starts_with_space (join sep (q :: qs)) = false.
Proof.
  intros Hsep Hq. destruct qs as [|q' qs']; [exact Hq|].
  rewrite join_cons by discriminate.
  destruct q; [exact Hsep | exact Hq].
Qed.

Lemma map_fixed {A} (f : A -> A) l : Forall (fun x => f x = x) l -> map f l = l.
Proof. induction 1; simpl; congruence. Qed.

Lemma replace_class_fixed p by_ s :
  forallb (fun c => negb (p c)) s = true -> replace_class p by_ s = s.
Proof.
  unfold replace_class. induction s as [|c r IH]; cbn [flat_map forallb]; [auto|].
  intros H. apply andb_true_iff in H as [Hc Hr].
  apply negb_true_iff in Hc. rewrite Hc, (IH Hr). reflexivity.
Qed.

Lemma no_space_not_regex_space s :
  forallb no_space s = true ->
  forallb (fun c => negb (regex_space c)) s = true.
Proof.
  intros H. rewrite forallb_forall in *. intros c Hc. specialize (H c Hc).
  unfold no_space in H. apply negb_true_iff in H. apply negb_true_iff.
  destruct (regex_space c) eqn:E; [|reflexivity].
  apply regex_space_isSpace in E. congruence.
Qed.

Section Stem.

Context {P : Platform}.
Variable this : OrganizeFormat.

(** The cleanup of the parts, on a string with sparse whitespace. *)
Lemma fix_parts_sparse s : sparse s = true -> sparse (fix_parts s) = true.
Proof.
  intros H. unfold fix_parts. apply sparse_join; [reflexivity|].
  apply Forall_map. eapply Forall_impl; [|apply sparse_split, H].
  intros part Hp. now apply sparse_trimmed, sparse_strip_invalid_prefix.
Qed.

Lemma fix_parts_start s : starts_with_space (fix_parts s) = false.
Proof.
  unfold fix_parts. pose proof (split_not_nil slash s) as N.
  destruct (split slash s) as [|q qs]; [contradiction|].
  cbn [map]. apply starts_with_space_join; [reflexivity | apply trimmed_start].
Qed.

Lemma fix_parts_split s :
  split slash (fix_parts s)
  = map (fun part => trimmed (strip_invalid_prefix kInvalidPrefixCharacters part))
        (split slash s).
Proof.
  unfold fix_parts. apply split_join.
  - pose proof (split_not_nil slash s). now destruct (split slash s).
  - apply Forall_map. eapply Forall_impl; [|apply (split_no_sep slash s)].
    intros part Hp. apply contains_false_forallb.
    apply forallb_trimmed, forallb_strip_invalid_prefix.
    now apply contains_false_forallb.
Qed.

Lemma fix_parts_fixed s :
  Forall (fun part => has_invalid_prefix part = false) (split slash s) ->
  Forall (fun part => trimmed part = part) (split slash s) ->
  fix_parts s = s.
Proof.
  intros Hp Ht. unfold fix_parts. rewrite map_fixed; [apply join_split|].
  rewrite Forall_forall in *. intros part Hin.
  rewrite (strip_invalid_prefix_none _ _ (Hp part Hin)). now apply Ht.
Qed.

Lemma sanitize_stem_sparse filepath : sparse (sanitize_stem this filepath) = true.
Proof.
  unfold sanitize_stem. cbv zeta.
  destruct (replace_spaces_ this) eqn:R.
  - apply sparse_no_space. pose proof (sanitize_stem_no_space this filepath R) as H.
    unfold sanitize_stem in H. cbv zeta in H. now rewrite R in H.
  - apply fix_parts_sparse, sparse_without_suffix, simplified_sparse.
Qed.

Lemma sanitize_stem_start filepath :
  starts_with_space (sanitize_stem this filepath) = false.
Proof.
  destruct (replace_spaces_ this) eqn:R.
  - pose proof (sanitize_stem_no_space this filepath R) as H.
    destruct (sanitize_stem this filepath) as [|c r]; [reflexivity|].
    cbn [forallb] in H. apply andb_true_iff in H as [H _].
    unfold no_space in H. now apply negb_true_iff in H.
  - unfold sanitize_stem. cbv zeta. rewrite R. apply fix_parts_start.
Qed.

Lemma sanitize_stem_parts_trimmed filepath :
  Forall (fun part => trimmed part = part) (split slash (sanitize_stem this filepath)).
Proof.
  destruct (replace_spaces_ this) eqn:R.
  - pose proof (sanitize_stem_no_space this filepath R) as H.
    eapply Forall_impl; [|apply (forallb_split _ slash _ H)].
    intros part Hp. now apply trimmed_no_space.
  - unfold sanitize_stem. cbv zeta. rewrite R, fix_parts_split.
    apply Forall_map, Forall_forall. intros part _. apply trimmed_idem.
Qed.

Lemma sanitize_stem_replaced filepath :
  (if replace_spaces_ this
   then replace_class regex_space (qs "_") (sanitize_stem this filepath)
   else sanitize_stem this filepath)
  = sanitize_stem this filepath.
Proof.
  destruct (replace_spaces_ this) eqn:R; [|reflexivity].
  apply replace_class_fixed, no_space_not_regex_space.
  now apply sanitize_stem_no_space.
Qed.

End Stem.

(** *** The second run *)

Lemma extension_char_spec appended :
  forallb extension_char appended = true ->
  contains dot appended = false /\ contains slash appended = false
  /\ forallb no_space appended = true.
Proof.
  intros H. rewrite !contains_false_forallb.
  repeat split; rewrite forallb_forall in *; intros c Hc;
    specialize (H c Hc); unfold extension_char in H;
    apply andb_true_iff in H as [H H3]; apply andb_true_iff in H as [H1 H2];
    assumption.
Qed.

Section SecondRun.

Context {P : Platform}.
Variable this : OrganizeFormat.
Variable song : Song.

(** A stem with an extension behind it, when the extension has no whitespace,
    is what [simplified] returns for it. *)
Lemma simplified_stem_extension filepath appended :
  appended <> [] -> forallb no_space appended = true ->
  simplified (sanitize_stem this filepath ++ dot :: appended)
  = sanitize_stem this filepath ++ dot :: appended.
Proof.
  intros Hne Hns. apply simplified_fixed.
  - apply sparse_around; [reflexivity | apply sanitize_stem_sparse|].
    now apply sparse_no_space.
  - pose proof (sanitize_stem_start this filepath) as S.
    destruct (sanitize_stem this filepath); [reflexivity | exact S].
  - destruct (exists_last Hne) as (l & a & ->).
    change (dot :: l ++ [a]) with ((dot :: l) ++ [a]).
    rewrite app_assoc, ends_with_space_snoc.
    apply forallb_last in Hns. unfold no_space in Hns.
    now apply negb_true_iff in Hns.
Qed.

(** C7, as the code has it.  Let [q] be the path the sanitizer makes of a
    candidate: a stem followed by the appended extension.  Running the
    sanitizer on [q] again, with the same record, extension argument and
    configuration, returns [q] when the removal stages leave [q] as it is
    (as they do when they are switched off), an extension was appended and
    has no dot, slash or whitespace, no segment of the stem starts with an
    invalid prefix character, and the directory of the stem, the text before
    its last slash, is neither empty nor a single dot. *)
Theorem sanitize_second_run (extension filepath : QString) :
  let q := sanitize this song extension filepath in
  let stem := sanitize_stem this filepath in
  let appended := sanitize_extension this song extension filepath in
  remove_characters this q = q ->
  appended <> [] ->
  forallb extension_char appended = true ->
  Forall (fun part => has_invalid_prefix part = false) (split slash stem) ->
  before_last slash stem <> Some [] ->
  before_last slash stem <> Some [dot] ->
  sanitize this song extension q = q.
Proof.
  intros q stem appended Hrm Hne Hext Hprefix Hdir1 Hdir2.
  destruct (extension_char_spec _ Hext) as (Hdot & Hslash & Hspace).
  assert (Q : q = stem ++ dot :: appended).
  { unfold q. rewrite sanitize_parts. fold stem appended.
    unfold append_extension. destruct appended; [contradiction | reflexivity]. }
  assert (S : simplified (remove_characters this q) = q).
  { rewrite Hrm, Q. now apply simplified_stem_extension. }
  assert (W : without_suffix q = stem).
  { rewrite Q. now apply without_suffix_with_extension. }
  assert (F : fix_parts stem = stem).
  { apply fix_parts_fixed; [exact Hprefix|].
    apply sanitize_stem_parts_trimmed. }
  assert (St : sanitize_stem this q = stem).
  { unfold sanitize_stem at 1. cbv zeta. rewrite S, W, F.
    apply sanitize_stem_replaced. }
  assert (Ex : sanitize_extension this song extension q = appended).
  { unfold sanitize_extension at 1. rewrite S. unfold fixup_extension.
    destruct (isEmpty extension) eqn:E.
    - rewrite Q, (suffix_with_extension _ _ Hslash Hdot).
      destruct appended; [contradiction | reflexivity].
    - unfold appended, sanitize_extension, fixup_extension. now rewrite E. }
  rewrite sanitize_parts, St, Ex. unfold append_extension.
  rewrite Q. destruct appended; [contradiction | reflexivity].
Qed.

End SecondRun.

Lemma sanitize_second_run_witness :
  sanitize (P := sample_platform) (OrganizeFormat_new [])
    (sample_song "Mr Blue Sky" "X" "A" 1977 1 "/m/01.flac") (qs "mp3")
    (qs "A/Mr_Blue_Sky.mp3")
  = qs "A/Mr_Blue_Sky.mp3".
Proof.
  refine (sanitize_second_run (P := sample_platform) (OrganizeFormat_new [])
            (sample_song "Mr Blue Sky" "X" "A" 1977 1 "/m/01.flac")
            (qs "mp3") (qs "A/Mr Blue Sky") _ _ _ _ _ _).
  - vm_compute. reflexivity.
  - vm_compute. discriminate.
  - vm_compute. reflexivity.
  - vm_compute. repeat constructor.
  - vm_compute. discriminate.
  - vm_compute. discriminate.
Defined.

(** C7 as stated fails, with every removal stage switched off: a segment
    that started with three dots starts with two after the first run and
    with one after the second; and an extension with a dot in it is appended
    behind its own first part again. *)
Lemma sanitize_twice_counterexample :
  let this := OrganizeFormat_new [] in
  let song := sample_song "T" "X" "A" 1977 1 "/m/01.flac" in
  sanitize (P := sample_platform) this song (qs "mp3") (qs "a/...b c.ogg")
    = qs "a/..b_c.mp3"
  /\ sanitize (P := sample_platform) this song (qs "mp3") (qs "a/..b_c.mp3")
     = qs "a/.b_c.mp3"
  /\ sanitize (P := sample_platform) this song (qs "mp3") (qs "a/..b_c.mp3")
     <> qs "a/..b_c.mp3"
  /\ sanitize (P := sample_platform) this song (qs "tar.gz") (qs "a/b")
     = qs "a/b.tar.gz"
  /\ sanitize (P := sample_platform) this song (qs "tar.gz") (qs "a/b.tar.gz")
     = qs "a/b.tar.tar.gz".
Proof.
  cbv zeta. repeat split; try (vm_compute; reflexivity).
  vm_compute. discriminate.
Qed.

(** * Further properties of the code *)

(** ** What [TagValue] returns *)

Lemma remove_class_forallb p s :
  forallb (fun c => negb (p c)) (remove_class p s) = true.
Proof. unfold remove_class. apply forallb_filter. Qed.

Lemma forallb_remove_class q p s :
  forallb q s = true -> forallb q (remove_class p s) = true.
Proof.
  intros H. unfold remove_class. rewrite forallb_forall in *.
  intros c Hc. apply filter_In in Hc as [Hc _]. now apply H.
Qed.

Lemma remove_char_removes c s : contains c (remove_char c s) = false.
Proof.
  apply contains_false_forallb. unfold remove_char.
  pose proof (remove_class_forallb (QChar_eqb c) s) as H.
  rewrite forallb_forall in *. intros x Hx. specialize (H x Hx).
  unfold QChar_eqb in *. now rewrite N.eqb_sym.
Qed.

Section TagValues.

Context {P : Platform}.
Variable this : OrganizeFormat.
Variable song : Song.

(** X1.  A name that is not one of the twenty known tags matches no
    comparison of [TagValue] and resolves to the empty string. *)
Theorem unknown_tag_is_empty (tag : QString)
    (Hunknown : QStringList_contains kKnownTags tag = false) :
  TagValue this tag song = Ok [].
Proof.
  unfold QStringList_contains, kKnownTags in Hunknown.
  cbn [existsb] in Hunknown.
  repeat match type of Hunknown with
  | (_ || _)%bool = false =>
      let H := fresh "H" in
      apply orb_false_iff in Hunknown; destruct Hunknown as [H Hunknown]
  end.
  unfold TagValue, tag_field, pad_track.
  repeat match goal with
  | H : QString_eqb tag ?s = false |- _ => rewrite H; clear H
  end.
  cbn. now rewrite clean_value_nil.
Qed.

(** The cleanup at the end of [TagValue]. *)
Lemma clean_value_is_clean value :
  forallb (fun c => negb (isInvalidDirCharacter c)) (clean_value this value) = true
  /\ trimmed (clean_value this value) = clean_value this value
  /\ (remove_problematic_ this = true ->
      contains dot (clean_value this value) = false).
Proof.
  unfold clean_value. cbv zeta. split; [|split].
  - apply forallb_trimmed.
    destruct (remove_problematic_ this);
      [apply forallb_remove_class|]; apply remove_class_forallb.
  - apply trimmed_idem.
  - intros ->. apply contains_false_forallb. apply forallb_trimmed.
    apply contains_false_forallb. apply remove_char_removes.
Qed.

Lemma TagValue_value_is_clean tag value :
  TagValue this tag song = Ok value ->
  forallb (fun c => negb (isInvalidDirCharacter c)) value = true
  /\ (remove_problematic_ this = true -> contains dot value = false).
Proof.
  unfold TagValue. destruct (tag_field tag song) as [v| |]; try discriminate.
  cbn [bind]. intros H. injection H as <-.
  destruct (clean_value_is_clean (pad_track tag (suppress_sentinel v)))
    as (H1 & _ & H3).
  now split.
Qed.

(** X2.  Whatever the tag and the record, the value [TagValue] returns has
    no character of the invalid-path-character set, neither starts nor ends
    with whitespace, and has no dot when problematic characters are
    removed. *)
Theorem TagValue_is_clean (tag value : QString)
    (Hvalue : TagValue this tag song = Ok value) :
  forallb (fun c => negb (isInvalidDirCharacter c)) value = true
  /\ starts_with_space value = false
  /\ ends_with_space value = false
  /\ trimmed value = value
  /\ (remove_problematic_ this = true -> contains dot value = false).
Proof.
  unfold TagValue in Hvalue.
  destruct (tag_field tag song) as [v| |]; try discriminate.
  cbn [bind] in Hvalue. injection Hvalue as <-.
  destruct (clean_value_is_clean (pad_track tag (suppress_sentinel v)))
    as (H1 & H2 & H3).
  split; [exact H1|]. split; [rewrite <- H2; apply trimmed_start|].
  split; [rewrite <- H2; apply trimmed_end|]. split; assumption.
Qed.

(** X3.  The sentinels are suppressed for every tag, the text tags
    included: a field whose text is exactly "0" or "-1" resolves to the empty
    string, so a title "0" is an empty title. *)
Theorem sentinel_applies_to_every_tag (tag field : QString)
    (Hfield : tag_field tag song = Ok field)
    (Hsentinel : field = qs "0" \/ field = qs "-1") :
  TagValue this tag song = Ok [].
Proof.
  unfold TagValue. rewrite Hfield. cbn [bind].
  assert (S : suppress_sentinel field = []).
  { destruct Hsentinel as [-> | ->]; reflexivity. }
  rewrite S. unfold pad_track. cbn [length Nat.eqb].
  rewrite andb_false_r. now rewrite clean_value_nil.
Qed.

(** X4.  The length is the duration divided by [kNsecPerSec] with
    truncation towards zero: for every duration of less than a second in
    either direction, the -1 of an unknown duration included, the field that
    is looked up is "0", not "-1"; being a sentinel it is suppressed, and the
    tag resolves to the empty string. *)
Theorem length_below_a_second_is_empty
    (Hshort : (- kNsecPerSec < length_nanosec song < kNsecPerSec)%Z) :
  tag_field (qs "length") song = Ok (qs "0")
  /\ TagValue this (qs "length") song = Ok [].
Proof.
  assert (Q : Z.quot (length_nanosec song) kNsecPerSec = 0%Z).
  { apply Z.quot_small_iff; [discriminate|].
    unfold kNsecPerSec in *. lia. }
  assert (F : tag_field (qs "length") song = Ok (qs "0")).
  { change (tag_field (qs "length") song)
      with (Ok (number (Z.quot (length_nanosec song) kNsecPerSec))).
    now rewrite Q. }
  split; [exact F|].
  apply (TagValue_unset_number this song (qs "length") 0);
    [exact F | now left | reflexivity].
Qed.

End TagValues.

Lemma unknown_tag_witness :
  TagValue (P := sample_platform) (OrganizeFormat_new [])
    (qs "albumname") (sample_song "T" "X" "A" 2001 7 "/m/a.flac") = Ok [].
Proof.
  exact (unknown_tag_is_empty (P := sample_platform) (OrganizeFormat_new [])
           (sample_song "T" "X" "A" 2001 7 "/m/a.flac") (qs "albumname") eq_refl).
Defined.

Lemma TagValue_is_clean_witness :
  forallb (fun c => negb (isInvalidDirCharacter (Platform := sample_platform) c))
    (qs "ACDC") = true
  /\ starts_with_space (qs "ACDC") = false
  /\ ends_with_space (qs "ACDC") = false
  /\ trimmed (qs "ACDC") = qs "ACDC"
  /\ (remove_problematic_ (OrganizeFormat_new []) = true ->
      contains dot (qs "ACDC") = false).
Proof.
  exact (TagValue_is_clean (P := sample_platform) (OrganizeFormat_new [])
           (sample_song "T" "X" " AC/DC " 2001 7 "/m/a.flac")
           (qs "artist") (qs "ACDC") eq_refl).
Defined.

Lemma sentinel_applies_witness :
  TagValue (P := sample_platform) (OrganizeFormat_new [])
    (qs "title") (sample_song "0" "X" "A" 2001 7 "/m/a.flac") = Ok [].
Proof.
  exact (sentinel_applies_to_every_tag (P := sample_platform)
           (OrganizeFormat_new [])
           (sample_song "0" "X" "A" 2001 7 "/m/a.flac")
           (qs "title") (qs "0") eq_refl (or_introl eq_refl)).
Defined.

Lemma length_below_a_second_witness :
  let song :=
    {| title := qs "T"; album := qs "X"; artist := qs "A";
       composer := []; performer := []; grouping := []; lyrics := [];
       genre := []; comment := [];
       year := 2001; effective_originalyear := 2001; track := 7; disc := 0;
       length_nanosec := -1; bitrate := 0; samplerate := 0; bitdepth := 0;
       url_toLocalFile := qs "/m/a.flac"; effective_albumartist := qs "A";
       is_compilation := false; basefilename := qs "a.flac" |} in
  tag_field (P := sample_platform) (qs "length") song = Ok (qs "0")
  /\ TagValue (P := sample_platform) (OrganizeFormat_new []) (qs "length") song
     = Ok [].
Proof.
  intros song.
  refine (length_below_a_second_is_empty (P := sample_platform)
            (OrganizeFormat_new []) song _).
  vm_compute. split; reflexivity.
Defined.

(** ** What [ParseBlock] makes of a template *)

Lemma find_block_intro pre body post :
  contains lbrace pre = false ->
  forallb not_brace body = true -> body <> [] ->
  find_block (pre ++ lbrace :: body ++ rbrace :: post) 0 = Some (length pre, body).
Proof.
  intros Hpre Hb Hn. induction pre as [|c pre IH].
  - now apply find_block_head.
  - unfold contains in Hpre. cbn [existsb] in Hpre.
    apply orb_false_iff in Hpre as [Hc Hpre].
    cbn [app find_block block_at]. unfold QChar_eqb in *.
    rewrite (N.eqb_sym c lbrace), Hc.
    rewrite find_block_shift, (IH Hpre). reflexivity.
Qed.

Lemma count_none c s : contains c s = false -> count c s = 0.
Proof.
  unfold contains, count. induction s as [|x r IH]; cbn [existsb filter]; [auto|].
  intros H. apply orb_false_iff in H as [-> H]. auto.
Qed.

Lemma count_cons_other c x s :
  QChar_eqb c x = false -> count c (x :: s) = count c s.
Proof. intros H. unfold count. cbn [filter]. now rewrite H. Qed.

Section Templates.

Context {P : Platform}.
Variable this : OrganizeFormat.
Variable song : Song.

(** X5.  A template without a percent sign and without an opening brace is
    returned as it is, with the uniqueness flag and no emptiness. *)
Theorem plain_template_is_unchanged
    (template : QString) (have_tagdata : bool) (depth : nat)
    (Hpercent : contains percent template = false)
    (Hbrace : contains lbrace template = false) :
  ParseBlock this (S depth) template song have_tagdata
  = Ok (template, have_tagdata, false).
Proof.
  rewrite (ParseBlock_plain this song depth template have_tagdata Hbrace).
  now apply render_tags_plain.
Qed.

(** The block pass of a template with one section. *)
Lemma one_section_blocks pre body post have_tagdata depth :
  contains lbrace pre = false ->
  forallb not_brace body = true -> body <> [] ->
  contains lbrace post = false ->
  render_blocks (fun b h => ParseBlock this (S depth) b song h)
    (pre ++ lbrace :: body ++ rbrace :: post) have_tagdata
  = '(text, have', empty) <- render_tags this song body have_tagdata false ;;
    Ok (pre ++ (if (empty : bool) then [] else text) ++ post, have').
Proof.
  intros Hpre Hbody Hne Hpost.
  unfold render_blocks. cbn [expand_blocks].
  rewrite (find_block_intro pre body post Hpre Hbody Hne). cbv beta iota.
  rewrite (ParseBlock_plain this song depth body have_tagdata
             (not_brace_no_lbrace _ Hbody)).
  destruct (render_tags this song body have_tagdata false)
    as [[[text h] e]| |]; [|reflexivity..].
  cbn [bind]. rewrite firstn_length_app.
  replace (pre ++ lbrace :: body ++ rbrace :: post)
    with (pre ++ (lbrace :: body ++ [rbrace]) ++ post)
    by (simpl; now rewrite <- app_assoc).
  replace (length body + 2) with (length (lbrace :: body ++ [rbrace]))
    by (simpl; rewrite length_app; simpl; lia).
  rewrite skipn_past_app, skipn_length_app.
  rewrite expand_blocks_plain; [|lens | exact Hpost].
  cbn [prefix_block bind]. now rewrite <- app_assoc.
Qed.

(** X6.  A template with one section, [pre ++ "{" ++ body ++ "}" ++ post],
    is evaluated in two steps: the tag loop runs on the body, and then runs
    again on the surrounding text with the section replaced by what the body
    gave, or by nothing when a tag of the body was empty.  The text a section
    contributes is so scanned for tags a second time, and the uniqueness flag
    of the body is kept even when the section is dropped. *)
Theorem section_is_replaced_by_its_rendering
    (pre body post : QString) (have_tagdata : bool) (depth : nat)
    (Hpre : contains lbrace pre = false)
    (Hbody : forallb not_brace body = true)
    (Hne : body <> [])
    (Hpost : contains lbrace post = false) :
  ParseBlock this (S (S depth)) (pre ++ lbrace :: body ++ rbrace :: post)
    song have_tagdata
  = '(text, have', empty) <-
      tag_loop this song (S (length body)) body 0 have_tagdata false ;;
    tag_loop this song
      (S (length (pre ++ (if (empty : bool) then [] else text) ++ post)))
      (pre ++ (if (empty : bool) then [] else text) ++ post) 0 have' false.
Proof.
  rewrite ParseBlock_passes.
  rewrite (one_section_blocks pre body post have_tagdata depth
             Hpre Hbody Hne Hpost).
  rewrite tag_loop_render.
  destruct (render_tags this song body have_tagdata false)
    as [[[text h] e]| |]; [|reflexivity..].
  cbn [bind]. now rewrite tag_loop_render.
Qed.

(** Once set, the uniqueness flag stays set. *)
Lemma expand_tags_keeps_have fuel : forall s empty text have' empty',
  expand_tags this song fuel s true empty = Ok (text, have', empty') ->
  have' = true.
Proof.
  induction fuel as [|fuel IH]; intros s e text h' e'; [discriminate|].
  cbn [expand_tags].
  destruct (find_tag s 0) as [[i tag]|]; [|congruence].
  destruct (TagValue this tag song) as [v| |]; try discriminate.
  cbn [bind].
  replace (if isEmpty v then true
           else if QStringList_contains kUniqueTags tag then true else true)
    with true
    by (destruct (isEmpty v), (QStringList_contains kUniqueTags tag); reflexivity).
  match goal with |- context [expand_tags this song fuel ?a true ?b] =>
    destruct (expand_tags this song fuel a true b) as [[[t h1] e1]| |] eqn:X end;
    try discriminate.
  cbn. intros H. injection H as _ <- _. exact (IH _ _ _ _ _ X).
Qed.

Lemma expand_blocks_keeps_have rec fuel :
  (forall b text h e, rec b true = Ok (text, h, e) -> h = true) ->
  forall s text have',
  expand_blocks rec fuel s true = Ok (text, have') -> have' = true.
Proof.
  intros Hrec. induction fuel as [|fuel IH]; intros s text h'; [discriminate|].
  cbn [expand_blocks].
  destruct (find_block s 0) as [[i body]|]; [|congruence].
  destruct (rec body true) as [[[v h] e]| |] eqn:R; try discriminate.
  cbn [bind]. rewrite (Hrec _ _ _ _ R).
  match goal with |- context [expand_blocks rec fuel ?a true] =>
    destruct (expand_blocks rec fuel a true) as [[t h1]| |] eqn:X end;
    try discriminate.
  cbn. intros H. injection H as _ <-. exact (IH _ _ _ X).
Qed.

(** X7.  [ParseBlock] only ever sets the flag behind [have_tagdata]: called
    with the flag set, it returns with the flag set, whatever the template
    and however deep the sections. *)
Theorem have_tagdata_is_never_reset
    (depth : nat) (block text : QString) (have' empty : bool)
    (Hcall : ParseBlock this depth block song true = Ok (text, have', empty)) :
  have' = true.
Proof.
  revert block text have' empty Hcall.
  induction depth as [|depth IH]; intros block text h e; [discriminate|].
  rewrite ParseBlock_passes. unfold render_blocks.
  destruct (expand_blocks (fun b h0 => ParseBlock this depth b song h0)
              (S (length block)) block true) as [[b1 h1]| |] eqn:B;
    try discriminate.
  apply expand_blocks_keeps_have in B; [|exact IH]. subst h1.
  cbn [bind]. apply expand_tags_keeps_have.
Qed.

Lemma unique_tag_is_letters tag :
  QStringList_contains kUniqueTags tag = true ->
  forallb regex_letter tag = true.
Proof.
  unfold QStringList_contains, kUniqueTags. cbn [existsb].
  rewrite orb_false_r. intros H. apply orb_true_iff in H.
  destruct H as [H | H]; apply QString_eqb_eq in H; subst tag; reflexivity.
Qed.

Lemma unique_tag_renders_unique s1 tag s2 value have_tagdata empty :
  QStringList_contains kUniqueTags tag = true ->
  TagValue this tag song = Ok value -> value <> [] ->
  starts_with_letter s2 = false ->
  exists text empty',
    render_tags this song (s1 ++ percent :: tag ++ s2) have_tagdata empty
    = Ok (text, true, empty').
Proof.
  intros Hu Hv Hne Hs2.
  rewrite (render_tags_app this song (length s1)); [|lia | reflexivity].
  destruct (render_tags_ok this song s1 have_tagdata empty) as [[[t1 h1] e1] ->].
  cbn [bind].
  rewrite (render_tags_step this song [] tag s2 h1 e1 eq_refl
             (unique_tag_is_letters tag Hu) Hs2).
  rewrite Hv. cbn [bind]. rewrite Hu.
  destruct value as [|c r]; [contradiction|]. cbn [isEmpty].
  destruct (render_tags_ok this song s2 true e1) as [[[t2 h2] e2] E2].
  rewrite E2. pose proof (expand_tags_keeps_have _ _ _ _ _ _ E2). subst h2.
  cbn. eauto.
Qed.

(** X8.  A [%title] or [%track] that resolves to a non-empty value sets the
    uniqueness flag wherever it stands in the text the tag loop scans; for a
    template without sections the flag [GetFilenameForSong] reports is then
    set. *)
Theorem unique_tag_sets_the_flag
    (s1 tag s2 value : QString) (have_tagdata empty : bool)
    (Hunique : QStringList_contains kUniqueTags tag = true)
    (Hvalue : TagValue this tag song = Ok value)
    (Hne : value <> [])
    (Hs2 : starts_with_letter s2 = false) :
  (exists text empty',
     tag_loop this song (S (length (s1 ++ percent :: tag ++ s2)))
       (s1 ++ percent :: tag ++ s2) 0 have_tagdata empty
     = Ok (text, true, empty'))
  /\ (format_ this = s1 ++ percent :: tag ++ s2 ->
      contains lbrace (format_ this) = false ->
      exists text, evaluate_format this song = Ok (text, true)).
Proof.
  split.
  - rewrite tag_loop_render.
    exact (unique_tag_renders_unique s1 tag s2 value have_tagdata empty
             Hunique Hvalue Hne Hs2).
  - intros Hf Hb. unfold evaluate_format.
    rewrite (ParseBlock_plain this song _ _ false Hb). rewrite Hf.
    destruct (unique_tag_renders_unique s1 tag s2 value false false
                Hunique Hvalue Hne Hs2) as (text & e & ->).
    cbn. eauto.
Qed.

(** X9.  The uniqueness flag is behind a pointer that the body of a section
    shares with its caller: a [%title] or [%track] with a value sets it even
    when another tag of the same section is empty and the section, title
    included, is dropped from the text. *)
Theorem dropped_section_still_sets_the_flag
    (s1 tag s2 value text : QString) (have_tagdata have' : bool) (depth : nat)
    (Hbody : forallb not_brace (s1 ++ percent :: tag ++ s2) = true)
    (Hunique : QStringList_contains kUniqueTags tag = true)
    (Hvalue : TagValue this tag song = Ok value)
    (Hne : value <> [])
    (Hs2 : starts_with_letter s2 = false)
    (Hempty : tag_loop this song (S (length (s1 ++ percent :: tag ++ s2)))
                (s1 ++ percent :: tag ++ s2) 0 have_tagdata false
              = Ok (text, have', true)) :
  ParseBlock this (S (S depth))
    (lbrace :: (s1 ++ percent :: tag ++ s2) ++ [rbrace]) song have_tagdata
  = Ok ([], true, false).
Proof.
  pose proof (one_section_blocks [] (s1 ++ percent :: tag ++ s2) []
                have_tagdata depth eq_refl Hbody
                ltac:(now destruct s1) eq_refl) as E.
  cbn [app] in E. rewrite ParseBlock_passes, E.
  rewrite tag_loop_render in Hempty. rewrite Hempty. cbn [bind app].
  destruct (unique_tag_renders_unique s1 tag s2 value have_tagdata false
              Hunique Hvalue Hne Hs2) as (t & e & R).
  rewrite R in Hempty. injection Hempty as _ <- _.
  now rewrite render_tags_plain.
Qed.

(** The tag loop neither adds nor removes a slash when the slash is an
    invalid path character. *)
Lemma expand_tags_slashes fuel :
  isInvalidDirCharacter slash = true ->
  forall s have_tagdata empty text have' empty',
  expand_tags this song fuel s have_tagdata empty = Ok (text, have', empty') ->
  count slash text = count slash s.
Proof.
  intros Hslash.
  induction fuel as [|fuel IH]; intros s h e text h' e'; [discriminate|].
  cbn [expand_tags].
  destruct (find_tag s 0) as [[i tag]|] eqn:F;
    [|intros H; now injection H as <- _ _].
  destruct (find_tag_Some _ _ _ F) as (pre & rest & -> & -> & _ & Ht & _).
  destruct (TagValue this tag song) as [v| |] eqn:V; try discriminate.
  cbn [bind]. rewrite firstn_length_app.
  change (percent :: tag ++ rest) with ((percent :: tag) ++ rest).
  change (S (length tag)) with (length (percent :: tag)).
  rewrite skipn_past_app, skipn_length_app.
  match goal with |- context [expand_tags this song fuel rest ?a ?b] =>
    destruct (expand_tags this song fuel rest a b) as [[[t h1] e1]| |] eqn:X end;
    try discriminate.
  cbn [prefix_text bind]. intros H. injection H as <- _ _.
  rewrite !count_app, (IH _ _ _ _ _ _ X).
  assert (Cv : count slash v = 0).
  { apply count_none, contains_false_forallb.
    destruct (TagValue_value_is_clean this song tag v V) as (Hc & _).
    rewrite forallb_forall in *. intros c Hin. specialize (Hc c Hin).
    apply negb_true_iff. apply N.eqb_neq. intros ->.
    rewrite Hslash in Hc. discriminate. }
  assert (Ct : count slash (percent :: tag) = 0).
  { rewrite count_cons_other by reflexivity.
    apply count_none, contains_false_forallb.
    rewrite forallb_forall in *. intros c Hin. specialize (Ht c Hin).
    apply negb_true_iff. apply N.eqb_neq. intros ->. discriminate. }
  lia.
Qed.

(** X10.  When the slash is an invalid path character, no tag value brings a
    directory separator into the path: for a template without sections the
    evaluated text has exactly the slashes of the template. *)
Theorem tag_values_add_no_separator
    (template text : QString) (have_tagdata have' empty : bool) (depth : nat)
    (Hslash : isInvalidDirCharacter slash = true)
    (Hbrace : contains lbrace template = false)
    (Hcall : ParseBlock this (S depth) template song have_tagdata
             = Ok (text, have', empty)) :
  count slash text = count slash template.
Proof.
  rewrite (ParseBlock_plain this song depth template have_tagdata Hbrace) in Hcall.
  exact (expand_tags_slashes _ Hslash _ _ _ _ _ _ Hcall).
Qed.

End Templates.

Lemma plain_template_witness :
  ParseBlock (P := sample_platform) (OrganizeFormat_new (qs "Music/Unsorted")) 1
    (qs "Music/Unsorted") (sample_song "T" "X" "A" 2001 7 "/m/a.flac") false
  = Ok (qs "Music/Unsorted", false, false).
Proof.
  exact (plain_template_is_unchanged (P := sample_platform)
           (OrganizeFormat_new (qs "Music/Unsorted"))
           (sample_song "T" "X" "A" 2001 7 "/m/a.flac")
           (qs "Music/Unsorted") false 0 eq_refl eq_refl).
Defined.

Lemma section_is_replaced_witness :
  ParseBlock (P := sample_platform) (OrganizeFormat_new []) 2
    (qs "%artist - " ++ lbrace :: qs "%composer - " ++ rbrace :: qs "%title")
    (sample_song "T" "X" "A" 2001 7 "/m/a.flac") false
  = Ok (qs "A - T", true, false).
Proof.
  refine (eq_trans
    (section_is_replaced_by_its_rendering (P := sample_platform)
       (OrganizeFormat_new []) (sample_song "T" "X" "A" 2001 7 "/m/a.flac")
       (qs "%artist - ") (qs "%composer - ") (qs "%title") false 0 _ _ _ _) _).
  - vm_compute. reflexivity.
  - vm_compute. reflexivity.
  - vm_compute. discriminate.
  - vm_compute. reflexivity.
  - vm_compute. reflexivity.
Defined.

Lemma have_tagdata_witness : true = true.
Proof.
  refine (have_tagdata_is_never_reset (P := sample_platform)
            (OrganizeFormat_new [])
            (sample_song "T" "X" "A" 2001 7 "/m/a.flac")
            2 (qs "{%album}/%artist") (qs "X/A") true false _).
  vm_compute. reflexivity.
Defined.

Lemma unique_tag_witness :
  exists text empty',
    tag_loop (P := sample_platform) (OrganizeFormat_new [])
      (sample_song "T" "X" "A" 2001 7 "/m/a.flac")
      (S (length (qs "%artist - " ++ percent :: qs "title" ++ [])))
      (qs "%artist - " ++ percent :: qs "title" ++ []) 0 false false
    = Ok (text, true, empty').
Proof.
  refine (proj1 (unique_tag_sets_the_flag (P := sample_platform)
            (OrganizeFormat_new [])
            (sample_song "T" "X" "A" 2001 7 "/m/a.flac")
            (qs "%artist - ") (qs "title") [] (qs "T") false false _ _ _ _)).
  - vm_compute. reflexivity.
  - vm_compute. reflexivity.
  - vm_compute. discriminate.
  - vm_compute. reflexivity.
Defined.

Lemma dropped_section_witness :
  ParseBlock (P := sample_platform) (OrganizeFormat_new []) 2
    (lbrace :: ([] ++ percent :: qs "title" ++ qs " by %composer") ++ [rbrace])
    (sample_song "T" "X" "A" 2001 7 "/m/a.flac") false
  = Ok ([], true, false).
Proof.
  refine (dropped_section_still_sets_the_flag (P := sample_platform)
            (OrganizeFormat_new [])
            (sample_song "T" "X" "A" 2001 7 "/m/a.flac")
            [] (qs "title") (qs " by %composer") (qs "T") (qs "T by ") false true 0
            _ _ _ _ _ _).
  - vm_compute. reflexivity.
  - vm_compute. reflexivity.
  - vm_compute. reflexivity.
  - vm_compute. discriminate.
  - vm_compute. reflexivity.
  - vm_compute. reflexivity.
Defined.

Lemma tag_values_add_no_separator_witness :
  count slash (qs "ACDC/T") = count slash (qs "%artist/%title").
Proof.
  refine (tag_values_add_no_separator (P := sample_platform)
            (OrganizeFormat_new [])
            (sample_song "T" "X" "AC/DC" 2001 7 "/m/a.flac")
            (qs "%artist/%title") (qs "ACDC/T") false true false 0 _ _ _).
  - vm_compute. reflexivity.
  - vm_compute. reflexivity.
  - vm_compute. reflexivity.
Defined.

(** ** The candidate *)

Lemma removelast_cons {A} (a : A) l :
  removelast (a :: l) = match l with [] => [] | _ :: _ => a :: removelast l end.
Proof. reflexivity. Qed.

(** The segments but the last, joined, are the text before the last
    separator. *)
Lemma section_before_last sep s :
  match before_last sep s with
  | None => removelast (split sep s) = []
  | Some d =>
      removelast (split sep s) <> [] /\ join sep (removelast (split sep s)) = d
  end.
Proof.
  induction s as [|c r IH]; [reflexivity|].
  cbn [split before_last].
  pose proof (split_not_nil sep r) as N.
  destruct (QChar_eqb c sep) eqn:E.
  - apply QChar_eqb_eq in E. subst c.
    rewrite removelast_cons.
    destruct (split sep r) as [|p ps] eqn:S; [contradiction|].
    destruct (before_last sep r) as [t|].
    + destruct IH as [IH1 IH2]. split; [discriminate|].
      rewrite join_cons by exact IH1. now rewrite IH2.
    + rewrite IH. split; [discriminate | reflexivity].
  - destruct (split sep r) as [|p ps] eqn:S; [contradiction|].
    rewrite removelast_cons in *.
    destruct (before_last sep r) as [t|].
    + destruct IH as [IH1 IH2].
      destruct ps as [|p' ps']; [contradiction|].
      split; [discriminate|].
      destruct (removelast (p' :: ps')) as [|q qs].
      * simpl in *. now rewrite IH2.
      * rewrite <- IH2. reflexivity.
    + destruct ps; [reflexivity | discriminate].
Qed.

Lemma section_0_m2_before_last sep s :
  section_0_m2 sep s = match before_last sep s with Some d => d | None => [] end.
Proof.
  unfold section_0_m2. pose proof (section_before_last sep s) as H.
  destruct (before_last sep s); [apply H | now rewrite H].
Qed.

(** X11.  The test of line 115 rejects the empty candidate and the
    candidate that is a single slash followed by a name without a slash,
    and nothing else: a candidate with a leading slash and a further
    directory, such as "/a/b", passes. *)
Theorem is_rejected_exactly (candidate : QString) :
  (is_rejected candidate = true <->
     candidate = []
     \/ exists name, candidate = slash :: name /\ contains slash name = false)
  /\ is_rejected (qs "/b") = true
  /\ is_rejected (qs "/a/b") = false
  /\ is_rejected (qs "a/b") = false.
Proof.
  split; [|repeat split].
  rewrite is_rejected_spec, section_0_m2_before_last. split.
  - intros [H | [Hc Hs]]; [now left | right].
    destruct (before_last slash candidate) as [d|] eqn:B.
    + subst d. destruct (before_last_Some _ _ _ B) as (f & _ & -> & Hf).
      now exists f.
    + apply before_last_None in B as [_ B]. congruence.
  - intros [H | (name & -> & Hn)]; [now left | right].
    split.
    + unfold contains. cbn [existsb]. now rewrite QChar_eqb_refl.
    + pose proof (before_last_at slash [] name Hn) as B. cbn [app] in B.
      now rewrite B.
Qed.

Lemma right1_slash p :
  QString_eqb (right1 p) [slash] = true -> exists l, p = l ++ [slash].
Proof.
  intros H. apply QString_eqb_eq in H. unfold right1 in H.
  destruct (rev p) as [|c r] eqn:R; [discriminate|].
  injection H as ->. exists (rev r).
  apply (f_equal (@rev QChar)) in R. now rewrite rev_involutive in R.
Qed.

Lemma fileName_behind_directory prefix name :
  prefix = [] \/ (exists l, prefix = l ++ [slash]) ->
  contains slash name = false ->
  fileName (prefix ++ name) = name.
Proof.
  intros Hp Hn. unfold fileName. destruct Hp as [-> | (l & ->)].
  - simpl. apply after_last_None in Hn. now rewrite Hn.
  - rewrite <- app_assoc. simpl. now rewrite (after_last_at _ _ _ Hn).
Qed.

Section Candidate.

Variable song : Song.

(** X12.  Lines 94 to 113 keep the promise of their comment, "avoid having
    empty filenames, or filenames with extension only": when the record's
    base file name is a plain file name with a non-empty base, the candidate
    has a non-empty base name, and it is either the evaluated template itself
    or a path whose file name is the record's base file name. *)
Theorem candidate_has_a_base_name (filepath : QString)
    (Hplain : contains slash (basefilename song) = false)
    (Hbase : completeBaseName (basefilename song) <> []) :
  completeBaseName (fallback_basefilename song filepath) <> []
  /\ (fallback_basefilename song filepath = filepath
      \/ fileName (fallback_basefilename song filepath) = basefilename song).
Proof.
  unfold fallback_basefilename. cbv zeta.
  set (fp := if isEmpty filepath then basefilename song else filepath).
  assert (Hfp : fp = filepath \/ fp = basefilename song).
  { unfold fp. destruct (isEmpty filepath); auto. }
  pose proof (fileName_behind_directory [] _ (or_introl eq_refl) Hplain) as F0.
  cbn [app] in F0.
  destruct (completeBaseName fp) as [|c r] eqn:C; cbn [isEmpty].
  - set (prefix := if isEmpty (path fp) then []
                   else if negb (QString_eqb (right1 (path fp)) [slash])
                        then path fp ++ [slash] else path fp).
    assert (Hprefix : prefix = [] \/ exists l, prefix = l ++ [slash]).
    { unfold prefix. destruct (isEmpty (path fp)); [now left | right].
      destruct (QString_eqb (right1 (path fp)) [slash]) eqn:R; cbn [negb].
      - now apply right1_slash.
      - now exists (path fp). }
    pose proof (fileName_behind_directory prefix _ Hprefix Hplain) as F.
    split; [|now right].
    unfold completeBaseName in *. rewrite F. rewrite F0 in Hbase.
    exact Hbase.
  - split; [now rewrite C|].
    destruct Hfp as [-> | ->]; [now left | right]. exact F0.
Qed.

End Candidate.

Lemma candidate_has_a_base_name_witness :
  completeBaseName
    (fallback_basefilename (sample_song "T" "X" "A" 2001 7 "/m/a.flac") (qs "A/.mp3"))
  <> [].
Proof.
  refine (proj1 (candidate_has_a_base_name
                   (sample_song "T" "X" "A" 2001 7 "/m/a.flac") (qs "A/.mp3") _ _)).
  - vm_compute. reflexivity.
  - vm_compute. discriminate.
Defined.

(** ** The sanitizer *)

Lemma strip_non_ascii_below {P : Platform} ascii s :
  forallb (fun c => N.ltb c ascii) (strip_non_ascii ascii s) = true.
Proof.
  unfold strip_non_ascii. induction s as [|c r IH]; [reflexivity|].
  cbn [flat_map]. rewrite forallb_app, IH, andb_true_r.
  destruct (N.ltb c ascii) eqn:E; [simpl; now rewrite E|].
  destruct (decomposition c) as [|d ds]; [reflexivity|].
  destruct (N.ltb d ascii) eqn:D; [simpl; now rewrite D | reflexivity].
Qed.

Lemma forallb_simplified p s :
  p 32%N = true -> forallb p s = true -> forallb p (simplified s) = true.
Proof.
  intros H32 H. unfold simplified.
  apply (forallb_dropWhile p isSpace) in H.
  generalize dependent (dropWhile isSpace s). intros t. generalize false.
  induction t as [|c r IH]; intros pending Ht; [reflexivity|].
  cbn [forallb] in Ht. apply andb_true_iff in Ht as [Hc Hr].
  cbn [simplify_from]. destruct (isSpace c); [now apply IH|].
  destruct pending; cbn [forallb]; rewrite ?H32, Hc, (IH false Hr); reflexivity.
Qed.

Lemma forallb_replace_class p q by_ s :
  forallb p by_ = true -> forallb p s = true ->
  forallb p (replace_class q by_ s) = true.
Proof.
  intros Hby. unfold replace_class. induction s as [|c r IH]; [reflexivity|].
  cbn [forallb flat_map]. intros H. apply andb_true_iff in H as [Hc Hr].
  rewrite forallb_app, (IH Hr), andb_true_r.
  destruct (q c); [exact Hby | simpl; now rewrite Hc].
Qed.

Section Sanitizer.

Context {P : Platform}.
Variable this : OrganizeFormat.

(** What holds of every character after the removal stages, and of the
    space, the slash, the dot and the underscore, holds of every character
    of the stem. *)
Lemma sanitize_stem_forallb p filepath :
  p 32%N = true -> p slash = true -> p dot = true ->
  p (QLatin1Char "_") = true ->
  forallb p (remove_characters this filepath) = true ->
  forallb p (sanitize_stem this filepath) = true.
Proof.
  intros H32 Hslash Hdot Hus H. unfold sanitize_stem. cbv zeta.
  assert (F : forallb p (fix_parts (without_suffix
                 (simplified (remove_characters this filepath)))) = true).
  { apply forallb_fix_parts; [exact Hslash|].
    apply forallb_without_suffix; [exact Hslash | exact Hdot|].
    now apply forallb_simplified. }
  destruct (replace_spaces_ this); [|exact F].
  apply forallb_replace_class; [|exact F].
  change (qs "_") with [QLatin1Char "_"]. cbn [forallb]. now rewrite Hus.
Qed.

(** X13.  With the ASCII filter switched on, every character of the path
    before the extension is appended is below the threshold, 128 or 255; the
    extension is appended as it is, so the whole path is below the threshold
    when the extension is. *)
Theorem ascii_filter_bounds_the_stem
    (song : Song) (extension filepath : QString)
    (Hfilter : remove_non_ascii_ this = true) :
  forallb (fun c => N.ltb c (ascii_limit this)) (sanitize_stem this filepath) = true
  /\ (forallb (fun c => N.ltb c (ascii_limit this))
        (sanitize_extension this song extension filepath) = true ->
      forallb (fun c => N.ltb c (ascii_limit this))
        (sanitize this song extension filepath) = true).
Proof.
  assert (S : forallb (fun c => N.ltb c (ascii_limit this))
                (sanitize_stem this filepath) = true).
  { apply sanitize_stem_forallb;
      try (unfold ascii_limit; destruct (allow_ascii_ext_ this); reflexivity).
    unfold remove_characters. cbv zeta. rewrite Hfilter.
    apply strip_non_ascii_below. }
  split; [exact S|]. intros He. rewrite sanitize_parts. unfold append_extension.
  destruct (isEmpty (sanitize_extension this song extension filepath));
    [exact S|].
  cbn [negb]. rewrite forallb_app. apply andb_true_iff. split; [exact S|].
  cbn [forallb]. apply andb_true_iff. split; [|exact He].
  unfold ascii_limit. now destruct (allow_ascii_ext_ this).
Qed.

(** X14.  With the removal of non-FAT characters switched on and the ASCII
    filter off, the path before the extension is appended has no character
    of the FAT-invalid set, provided the set does not contain the four
    characters the later stages put into a path themselves: space, slash,
    dot and underscore. *)
Theorem fat_filter_clears_the_stem (filepath : QString)
    (Hfat : remove_non_fat_ this = true)
    (Hascii : remove_non_ascii_ this = false)
    (Hspace : isInvalidFatCharacter 32%N = false)
    (Hslash : isInvalidFatCharacter slash = false)
    (Hdot : isInvalidFatCharacter dot = false)
    (Hunderscore : isInvalidFatCharacter (QLatin1Char "_") = false) :
  forallb (fun c => negb (isInvalidFatCharacter c)) (sanitize_stem this filepath)
  = true.
Proof.
  apply sanitize_stem_forallb;
    try (apply negb_true_iff; assumption).
  unfold remove_characters. cbv zeta. rewrite Hfat, Hascii.
  apply remove_class_forallb.
Qed.

Lemma sparse_adjacent a c d b :
  sparse (a ++ c :: d :: b) = true -> isSpace c = true ->
  c = 32%N /\ isSpace d = false.
Proof.
  intros H Hc. apply sparse_app_r in H. cbn [sparse starts_with_space] in H.
  rewrite Hc in H. apply andb_true_iff in H as [H _].
  apply andb_true_iff in H as [H1 H2].
  apply QChar_eqb_eq in H1. now apply negb_true_iff in H2.
Qed.

Lemma sparse_last a c :
  sparse (a ++ [c]) = true -> isSpace c = true -> c = 32%N.
Proof.
  intros H Hc. apply sparse_app_r in H. cbn [sparse] in H.
  rewrite Hc in H. apply andb_true_iff in H as [H _].
  apply andb_true_iff in H as [H1 _]. now apply QChar_eqb_eq in H1.
Qed.

(** X15.  Whatever the configuration and the candidate, in the path before
    the extension is appended no segment starts or ends with whitespace, a
    whitespace character is never followed by another one, and the only
    whitespace character left is the plain space. *)
Theorem stem_whitespace_is_tidy (filepath : QString) :
  Forall (fun part => starts_with_space part = false
                      /\ ends_with_space part = false)
         (split slash (sanitize_stem this filepath))
  /\ (forall a c d b,
        sanitize_stem this filepath = a ++ c :: d :: b ->
        isSpace c = true -> isSpace d = false)
  /\ (forall c, In c (sanitize_stem this filepath) ->
        isSpace c = true -> c = 32%N).
Proof.
  pose proof (sanitize_stem_sparse this filepath) as S.
  split; [|split].
  - eapply Forall_impl; [|apply (sanitize_stem_parts_trimmed this filepath)].
    intros part Hp. cbv beta in Hp. rewrite <- Hp.
    split; [apply trimmed_start | apply trimmed_end].
  - intros a c d b E Hc. rewrite E in S.
    exact (proj2 (sparse_adjacent _ _ _ _ S Hc)).
  - intros c Hin Hc. apply in_split in Hin as (a & b & E). rewrite E in S.
    destruct b as [|d b].
    + exact (sparse_last _ _ S Hc).
    + exact (proj1 (sparse_adjacent _ _ _ _ S Hc)).
Qed.

End Sanitizer.

(** X16.  Taking a path apart at line 152 and putting it together again
    loses nothing when the file name has a dot and the directory is neither
    empty nor a single dot: the path without its suffix, a dot and the suffix
    are the path. *)
Theorem without_suffix_and_suffix (filepath : QString)
    (Hdot : contains dot (fileName filepath) = true)
    (Hdir1 : before_last slash filepath <> Some [])
    (Hdir2 : before_last slash filepath <> Some [dot]) :
  without_suffix filepath ++ dot :: suffix filepath = filepath.
Proof.
  unfold without_suffix, suffix, completeBaseName.
  pose proof (before_after_last dot (fileName filepath)) as D.
  destruct (before_last dot (fileName filepath)) as [b|],
           (after_last dot (fileName filepath)) as [e|]; try contradiction.
  2:{ congruence. }
  destruct D as [Ef _].
  assert (Hne : filepath <> []).
  { intros ->. discriminate Hdot. }
  unfold path. unfold fileName in Ef.
  destruct filepath as [|c0 r0]; [contradiction|].
  destruct (before_last slash (c0 :: r0)) as [d|] eqn:B.
  - destruct (before_last_Some _ _ _ B) as (f & A & E & _).
    rewrite A in Ef. subst f.
    destruct d as [|d0 ds]; [now contradiction Hdir1|].
    cbn [isEmpty negb andb].
    destruct (QString_eqb (d0 :: ds) [dot]) eqn:Q.
    + apply QString_eqb_eq in Q. rewrite Q in Hdir2. now contradiction Hdir2.
    + cbn [negb]. rewrite E. now rewrite <- !app_assoc.
  - destruct (before_last_None _ _ B) as [A _]. rewrite A in Ef.
    cbn [isEmpty negb andb]. rewrite QString_eqb_refl. cbn [negb app].
    now rewrite Ef.
Qed.

Lemma without_suffix_and_suffix_witness :
  without_suffix (qs "A/X/07 T.flac") ++ dot :: suffix (qs "A/X/07 T.flac")
  = qs "A/X/07 T.flac".
Proof.
  refine (without_suffix_and_suffix (qs "A/X/07 T.flac") _ _ _).
  - vm_compute. reflexivity.
  - vm_compute. discriminate.
  - vm_compute. discriminate.
Defined.

(** X17.  [set_format] is idempotent: installing the stored template again
    changes nothing. *)
Theorem set_format_is_idempotent (v : QString) (this : OrganizeFormat) :
  set_format (format_ (set_format v this)) (set_format v this)
  = set_format v this.
Proof.
  unfold set_format. cbn [format_ remove_problematic_ remove_non_fat_
    remove_non_ascii_ allow_ascii_ext_ replace_spaces_].
  f_equal. apply replace_char_fixed; [discriminate|].
  apply replace_char_removes. discriminate.
Qed.

Lemma ascii_filter_witness :
  forallb (fun c => N.ltb c 128)
    (sanitize_stem (P := sample_platform)
       {| format_ := []; remove_problematic_ := false; remove_non_fat_ := false;
          remove_non_ascii_ := true; allow_ascii_ext_ := false;
          replace_spaces_ := true |}
       (qs "Caf" ++ [233%N] ++ qs "/Bl" ++ [229%N] ++ qs " T"))
  = true.
Proof.
  exact (proj1 (ascii_filter_bounds_the_stem (P := sample_platform)
           {| format_ := []; remove_problematic_ := false; remove_non_fat_ := false;
              remove_non_ascii_ := true; allow_ascii_ext_ := false;
              replace_spaces_ := true |}
           (sample_song "T" "X" "A" 2001 7 "/m/a.flac") (qs "mp3")
           (qs "Caf" ++ [233%N] ++ qs "/Bl" ++ [229%N] ++ qs " T") eq_refl)).
Defined.

Lemma fat_filter_witness :
  forallb (fun c => negb (isInvalidFatCharacter (Platform := sample_platform) c))
    (sanitize_stem (P := sample_platform)
       {| format_ := []; remove_problematic_ := false; remove_non_fat_ := true;
          remove_non_ascii_ := false; allow_ascii_ext_ := false;
          replace_spaces_ := false |}
       (qs "A/What? [live] *T*"))
  = true.
Proof.
  exact (fat_filter_clears_the_stem (P := sample_platform)
           {| format_ := []; remove_problematic_ := false; remove_non_fat_ := true;
              remove_non_ascii_ := false; allow_ascii_ext_ := false;
              replace_spaces_ := false |}
           (qs "A/What? [live] *T*") eq_refl eq_refl eq_refl eq_refl eq_refl eq_refl).
Defined.

Section MoreInvariants.

Context {P : Platform}.
Variable this : OrganizeFormat.
Variable song : Song.

(** A character that no value has and no tag is made of is neither added
    nor removed by the tag loop. *)
Lemma expand_tags_count c fuel :
  (forall tag value, TagValue this tag song = Ok value -> contains c value = false) ->
  regex_letter c = false -> QChar_eqb c percent = false ->
  forall s have_tagdata empty text have' empty',
  expand_tags this song fuel s have_tagdata empty = Ok (text, have', empty') ->
  count c text = count c s.
Proof.
  intros Hvalue Hletter Hpercent.
  induction fuel as [|fuel IH]; intros s h e text h' e'; [discriminate|].
  cbn [expand_tags].
  destruct (find_tag s 0) as [[i tag]|] eqn:F;
    [|intros H; now injection H as <- _ _].
  destruct (find_tag_Some _ _ _ F) as (pre & rest & -> & -> & _ & Ht & _).
  destruct (TagValue this tag song) as [v| |] eqn:V; try discriminate.
  cbn [bind]. rewrite firstn_length_app.
  change (percent :: tag ++ rest) with ((percent :: tag) ++ rest).
  change (S (length tag)) with (length (percent :: tag)).
  rewrite skipn_past_app, skipn_length_app.
  match goal with |- context [expand_tags this song fuel rest ?a ?b] =>
    destruct (expand_tags this song fuel rest a b) as [[[t h1] e1]| |] eqn:X end;
    try discriminate.
  cbn [prefix_text bind]. intros H. injection H as <- _ _.
  rewrite !count_app, (IH _ _ _ _ _ _ X).
  rewrite (count_none _ _ (Hvalue tag v V)).
  assert (Ct : count c (percent :: tag) = 0).
  { rewrite count_cons_other by exact Hpercent.
    apply count_none, contains_false_forallb.
    rewrite forallb_forall in *. intros x Hin. specialize (Ht x Hin).
    apply negb_true_iff. apply N.eqb_neq. intros ->. congruence. }
  lia.
Qed.

(** X18.  With the removal of problematic characters switched on, values
    come without dots, so the evaluated text of a template without sections
    has exactly the dots of the template: no title or artist can bring in the
    dot at which the extension is later split off. *)
Theorem tag_values_add_no_dot
    (template text : QString) (have_tagdata have' empty : bool) (depth : nat)
    (Hproblematic : remove_problematic_ this = true)
    (Hbrace : contains lbrace template = false)
    (Hcall : ParseBlock this (S depth) template song have_tagdata
             = Ok (text, have', empty)) :
  count dot text = count dot template.
Proof.
  rewrite (ParseBlock_plain this song depth template have_tagdata Hbrace) in Hcall.
  refine (expand_tags_count dot _ _ eq_refl eq_refl _ _ _ _ _ _ Hcall).
  intros tag value V.
  exact (proj2 (TagValue_value_is_clean this song tag value V) Hproblematic).
Qed.

(** X19.  With only the removal of problematic characters switched on, the
    path before the extension is appended has no problematic character,
    provided the set does not contain the space, the slash, the dot or the
    underscore, which the later stages put into a path themselves. *)
Theorem problematic_filter_clears_the_stem (filepath : QString)
    (Hproblematic : remove_problematic_ this = true)
    (Hfat : remove_non_fat_ this = false)
    (Hascii : remove_non_ascii_ this = false)
    (Hspace : isProblematicCharacter 32%N = false)
    (Hslash : isProblematicCharacter slash = false)
    (Hdot : isProblematicCharacter dot = false)
    (Hunderscore : isProblematicCharacter (QLatin1Char "_") = false) :
  forallb (fun c => negb (isProblematicCharacter c)) (sanitize_stem this filepath)
  = true.
Proof.
  apply sanitize_stem_forallb;
    try (apply negb_true_iff; assumption).
  unfold remove_characters. cbv zeta. rewrite Hproblematic, Hfat, Hascii.
  apply remove_class_forallb.
Qed.

(** X20.  The cleanup of the parts never joins or drops a segment: the
    cleaned path has as many segments as the path had, each the trimmed
    segment without its one prefix character; a segment that was only an
    invalid prefix character is left behind as an empty segment. *)
Theorem fix_parts_keeps_the_segments (filepath : QString) :
  split slash (fix_parts filepath)
    = map (fun part => trimmed (strip_invalid_prefix kInvalidPrefixCharacters part))
          (split slash filepath)
  /\ length (split slash (fix_parts filepath)) = length (split slash filepath)
  /\ (forall k, In k kInvalidPrefixCharacters ->
        In [k] (split slash filepath) ->
        In [] (split slash (fix_parts filepath))).
Proof.
  pose proof (fix_parts_split filepath) as E.
  split; [exact E|]. split; [rewrite E; apply length_map|].
  intros k Hk Hin. rewrite E.
  apply in_map_iff. exists [k]. split; [|exact Hin].
  assert (S : strip_invalid_prefix kInvalidPrefixCharacters [k] = []).
  { clear Hin E. induction kInvalidPrefixCharacters as [|k0 ks IH];
      [contradiction|].
    cbn [strip_invalid_prefix startsWith].
    destruct (QChar_eqb k k0) eqn:Q; [reflexivity|].
    apply IH. destruct Hk as [-> | Hk]; [|exact Hk].
    now rewrite QChar_eqb_refl in Q. }
  now rewrite S.
Qed.

End MoreInvariants.

Lemma tag_values_add_no_dot_witness :
  count dot (qs "Mr Blue Sky") = count dot (qs "%title").
Proof.
  refine (tag_values_add_no_dot (P := sample_platform)
            {| format_ := qs "%title"; remove_problematic_ := true;
               remove_non_fat_ := false; remove_non_ascii_ := false;
               allow_ascii_ext_ := false; replace_spaces_ := true |}
            (sample_song "Mr. Blue Sky" "X" "A" 1977 1 "/m/01.flac")
            (qs "%title") (qs "Mr Blue Sky") false true false 0 _ _ _).
  - vm_compute. reflexivity.
  - vm_compute. reflexivity.
  - vm_compute. reflexivity.
Defined.

Lemma problematic_filter_witness :
  forallb (fun c => negb (isProblematicCharacter (Platform := sample_platform) c))
    (sanitize_stem (P := sample_platform)
       {| format_ := []; remove_problematic_ := true; remove_non_fat_ := false;
          remove_non_ascii_ := false; allow_ascii_ext_ := false;
          replace_spaces_ := true |}
       (qs "A/Who: What?"))
  = true.
Proof.
  exact (problematic_filter_clears_the_stem (P := sample_platform)
           {| format_ := []; remove_problematic_ := true; remove_non_fat_ := false;
              remove_non_ascii_ := false; allow_ascii_ext_ := false;
              replace_spaces_ := true |}
           (qs "A/Who: What?")
           eq_refl eq_refl eq_refl eq_refl eq_refl eq_refl eq_refl).
Defined.
